(** * trestle-bot: entrypoint base and YAML helpers

    A shallow embedding of [trestlebot/entrypoints/entrypoint_base.py] and
    [trestlebot/utils.py], with the properties of the design document
    stated and proved (or refuted) on it.

    Layout:
    - [Py]         the fragment of Python the two modules rely on
                   (text, truthiness, exceptions, a state-and-exception monad);
    - [Ruamel]     the part of ruamel.yaml's [CommentedMap] and comment
                   association that [utils.py] calls into;
    - [Utils]      [trestlebot/utils.py];
    - [Entrypoint] [trestlebot/entrypoints/entrypoint_base.py];
    - the theorems, one block per property. *)

From Stdlib Require Import ZArith Ascii String List Lia.
From stdpp Require Import base option list strings gmap.

Local Open Scope string_scope.
Local Open Scope list_scope.

(* ===================================================================== *)
(** * Python fragment *)
(* ===================================================================== *)

Module Py.

(** ** Text

    A [str] is modelled by a Rocq [string] whose characters stand for the
    code points below 256.  [isspace] is Python's [str.isspace] on that
    range: U+0009..U+000D, U+001C..U+0020, U+0085 and U+00A0. *)

Definition isspace (c : ascii) : bool :=
  let n := N_of_ascii c in
  ((9 <=? n) && (n <=? 13) || (28 <=? n) && (n <=? 32) || (n =? 133) || (n =? 160))%N.

(** [str.lstrip()] *)
Fixpoint lstrip (s : string) : string :=
  match s with
  | EmptyString => EmptyString
  | String c r => if isspace c then lstrip r else s
  end.

(** [str.rstrip()] *)
Fixpoint rstrip (s : string) : string :=
  match s with
  | EmptyString => EmptyString
  | String c r =>
      match rstrip r with
      | EmptyString => if isspace c then EmptyString else String c EmptyString
      | r' => String c r'
      end
  end.

(** [str.strip()] with no argument. *)
Definition strip (s : string) : string := rstrip (lstrip s).

(** [s.split(sep)] for a one-character separator: never returns the empty
    list, [''.split(',')] is [['']]. *)
Fixpoint split (sep : ascii) (s : string) : list string :=
  match s with
  | EmptyString => [EmptyString]
  | String c r =>
      if Ascii.eqb c sep then EmptyString :: split sep r
      else match split sep r with
           | h :: t => String c h :: t
           | [] => [String c EmptyString]
           end
  end.

(** Every character of [s] is whitespace (true of the empty string). *)
Fixpoint all_space (s : string) : bool :=
  match s with
  | EmptyString => true
  | String c r => isspace c && all_space r
  end.

(** Truthiness of an [Optional[str]]: [None] and [''] are falsy. *)
Definition truthy_str (s : option string) : bool :=
  match s with
  | None => false
  | Some EmptyString => false
  | Some _ => true
  end.

(** ** Exceptions *)

Inductive exc_class : Type :=
| Exception
| ValueError
| UnicodeDecodeError
| RuntimeError
| NotImplementedError
| OSError
| ConnectionError
| LookupError
| IndexError
| KeyError
| AttributeError
| EntrypointInvalidArgException.

Definition exc_class_eqb (a b : exc_class) : bool :=
  match a, b with
  | Exception, Exception | ValueError, ValueError
  | UnicodeDecodeError, UnicodeDecodeError | RuntimeError, RuntimeError
  | NotImplementedError, NotImplementedError | OSError, OSError
  | ConnectionError, ConnectionError | LookupError, LookupError
  | IndexError, IndexError
  | KeyError, KeyError | AttributeError, AttributeError
  | EntrypointInvalidArgException, EntrypointInvalidArgException => true
  | _, _ => false
  end.

(** Method resolution order: the class followed by its bases. *)
Definition mro (c : exc_class) : list exc_class :=
  match c with
  | Exception => [Exception]
  | ValueError => [ValueError; Exception]
  | UnicodeDecodeError => [UnicodeDecodeError; ValueError; Exception]
  | RuntimeError => [RuntimeError; Exception]
  | NotImplementedError => [NotImplementedError; RuntimeError; Exception]
  | OSError => [OSError; Exception]
  | ConnectionError => [ConnectionError; OSError; Exception]
  | LookupError => [LookupError; Exception]
  | IndexError => [IndexError; LookupError; Exception]
  | KeyError => [KeyError; LookupError; Exception]
  | AttributeError => [AttributeError; Exception]
  | EntrypointInvalidArgException => [EntrypointInvalidArgException; Exception]
  end.

(** An exception object: its class, [str(e)] and, when it was raised with
    [raise ... from e], the class and text of its [__cause__]. *)
Record exn : Type := Exn {
  exn_class : exc_class;
  str_of_exn : string;
  exn_cause : option (exc_class * string)
}.

Definition isinstance (e : exn) (c : exc_class) : bool :=
  existsb (exc_class_eqb c) (mro (exn_class e)).

(** ** Outcomes and the state-and-exception monad

    A call either returns a value or raises; either way it leaves a state
    behind, since mutations made before a [raise] stay. *)

Inductive outcome (A : Type) : Type :=
| Return (a : A)
| Raise (e : exn).
Arguments Return {A} a.
Arguments Raise {A} e.

Definition M (S A : Type) : Type := S -> outcome A * S.

Definition ret {S A} (a : A) : M S A := fun s => (Return a, s).
Definition raise {S A} (e : exn) : M S A := fun s => (Raise e, s).
Definition bind {S A B} (m : M S A) (k : A -> M S B) : M S B :=
  fun s => match m s with
           | (Return a, s') => k a s'
           | (Raise e, s') => (Raise e, s')
           end.
Definition get_state {S} : M S S := fun s => (Return s, s).
Definition modify {S} (f : S -> S) : M S unit := fun s => (Return tt, f s).

(** [try: body except <handled by h>]: [h e = None] when no [except]
    clause matches [e], which then propagates. *)
Definition try_except {S A} (body : M S A) (h : exn -> option (M S A)) : M S A :=
  fun s => match body s with
           | (Return a, s') => (Return a, s')
           | (Raise e, s') =>
               match h e with
               | Some handler => handler s'
               | None => (Raise e, s')
               end
           end.

(** A call of a collaborator that has an outcome but touches nothing of
    the modelled state. *)
Definition lift_outcome {S A} (o : outcome A) : M S A := fun s => (o, s).

(** [for x in l: body(x)] *)
Fixpoint for_each {S A} (l : list A) (body : A -> M S unit) : M S unit :=
  match l with
  | [] => ret tt
  | x :: r => bind (body x) (fun _ => for_each r body)
  end.

(** [range(lo, hi)] *)
Definition range (lo hi : Z) : list Z :=
  map (fun i => (lo + Z.of_nat i)%Z) (seq 0 (Z.to_nat (hi - lo))).

(** [l[i]] on a list: a negative index counts from the end; [None] stands
    for the [IndexError] of an index outside the list. *)
Definition list_index {A} (l : list A) (i : Z) : option A :=
  let n := Z.of_nat (length l) in
  if (i <? 0)%Z
  then (if (0 <=? n + i)%Z then l !! Z.to_nat (n + i) else None)
  else l !! Z.to_nat i.

End Py.

Import Py.

Declare Scope py_scope.
Delimit Scope py_scope with py.
Notation "'let*' x ':=' m 'in' k" := (bind m (fun x => k))
  (at level 10, x name, m at level 100, k at level 200) : py_scope.
Local Open Scope py_scope.

(* ===================================================================== *)
(** * ruamel.yaml: what [utils.py] calls *)
(* ===================================================================== *)

Module Ruamel.

(** [tokens.CommentToken]; [value] is the raw text, marker included.  A
    token object is always truthy, whatever its text. *)
Record CommentToken : Type := { value : string }.

(** One position of a comment-association entry: [None], a single token,
    or a group of tokens (a group may hold [None]s). *)
Inductive comment_slot : Type :=
| SlotNone
| SlotToken (t : CommentToken)
| SlotList (l : list (option CommentToken)).

(** Keys of [ca.items]: a mapping key or a sequence index. *)
Inductive ca_key : Type :=
| KeyStr (k : string)
| KeyIdx (i : nat).

(** [comments.Comment], the object behind [node.ca]: the comment attached
    to the node itself, the per-key table [items] (a dict, kept in
    insertion order) and the comments after the node's last entry. *)
Record Comment : Type := {
  ca_comment : list comment_slot;
  ca_items : list (ca_key * list comment_slot);
  ca_end : list CommentToken
}.

Definition no_comment : Comment :=
  {| ca_comment := []; ca_items := []; ca_end := [] |}.

(** ruamel's [str] subclasses that remember how a scalar was written. *)
Inductive scalar_style : Type :=
| SingleQuoted | DoubleQuoted | Literal | Folded.

(** A [CommentedMap] over values [V]: its comment association, the set
    [_ok] of its own keys, and the ordered key/value pairs of the
    underlying [ordereddict].  Merge keys ([<<]) and referers are not
    modelled: the maps here are the ones a document without merges loads. *)
Record CommentedMapOf (V : Type) : Type := {
  cm_ca : Comment;
  cm_ok : gset string;
  cm_items : list (string * V)
}.
Arguments cm_ca {V} _.
Arguments cm_ok {V} _.
Arguments cm_items {V} _.

(** The values a loaded document is made of. *)
#[warnings="-register-all"]
Inductive pyval : Type :=
| PyNone
| PyBool (b : bool)
| PyInt (z : Z)
| PyStr (s : string)
| PyScalarString (sty : scalar_style) (s : string)
| PyCommentedMap (m : CommentedMapOf pyval)
| PyCommentedSeq (ca : Comment) (elems : list pyval).

Abbreviation CommentedMap := (CommentedMapOf pyval).

Definition is_None (v : pyval) : bool :=
  match v with PyNone => true | _ => false end.

(** ** The underlying ordered dict *)

Section Assoc.
Context {V : Type}.

Fixpoint assoc_get (k : string) (l : list (string * V)) : option V :=
  match l with
  | [] => None
  | (k', v) :: r => if String.eqb k k' then Some v else assoc_get k r
  end.

(** [d[k] = v]: an existing key keeps its place, a new one goes last. *)
Fixpoint assoc_set (k : string) (v : V) (l : list (string * V)) : list (string * V) :=
  match l with
  | [] => [(k, v)]
  | (k', v') :: r =>
      if String.eqb k k' then (k, v) :: r else (k', v') :: assoc_set k v r
  end.

Fixpoint assoc_del (k : string) (l : list (string * V)) : list (string * V) :=
  match l with
  | [] => []
  | (k', v') :: r => if String.eqb k k' then r else (k', v') :: assoc_del k r
  end.
End Assoc.

Definition keys (m : CommentedMap) : list string := map fst (cm_items m).

(** [len(m)] *)
Definition len (m : CommentedMap) : Z := Z.of_nat (length (cm_items m)).

Definition KeyError_of (k : string) : exn :=
  Exn KeyError ("'" +:+ k +:+ "'") None.

(** [CommentedMap.__getitem__] *)
Definition getitem (k : string) : M CommentedMap pyval :=
  fun m => match assoc_get k (cm_items m) with
           | Some v => (Return v, m)
           | None => (Raise (KeyError_of k), m)
           end.

(** [CommentedMap.get(key)]: [__getitem__] with every exception turned
    into the default [None]. *)
Definition get (k : string) : M CommentedMap pyval :=
  try_except (getitem k) (fun _ => Some (ret PyNone)).

(** [CommentedMap.__setitem__]: a plain [str] written over a styled
    scalar takes that scalar's style; the key joins [_ok]. *)
Definition setitem (k : string) (v : pyval) : M CommentedMap unit :=
  modify (fun m =>
    let v' := match v, assoc_get k (cm_items m) with
              | PyStr s, Some (PyScalarString sty _) => PyScalarString sty s
              | _, _ => v
              end in
    {| cm_ca := cm_ca m;
       cm_ok := cm_ok m ∪ {[ k ]};
       cm_items := assoc_set k v' (cm_items m) |}).

(** [CommentedMap.__delitem__]: [_ok.discard(key)] comes first, then the
    dict deletion, which raises [KeyError] for a key it does not hold. *)
Definition delitem (k : string) : M CommentedMap unit :=
  fun m =>
    let m' := {| cm_ca := cm_ca m; cm_ok := cm_ok m ∖ {[ k ]}; cm_items := cm_items m |} in
    match assoc_get k (cm_items m) with
    | Some _ => (Return tt,
                 {| cm_ca := cm_ca m; cm_ok := cm_ok m ∖ {[ k ]};
                    cm_items := assoc_del k (cm_items m) |})
    | None => (Raise (KeyError_of k), m')
    end.

(** [OrderedDict.move_to_end(key)]: the entry becomes the last one;
    [KeyError] for a key the dict does not hold. *)
Definition move_to_end (k : string) : M CommentedMap unit :=
  fun m =>
    match assoc_get k (cm_items m) with
    | Some v => (Return tt,
                 {| cm_ca := cm_ca m; cm_ok := cm_ok m;
                    cm_items := assoc_del k (cm_items m) ++ [(k, v)] |})
    | None => (Raise (KeyError_of k), m)
    end.

Definition IndexError_of_list : exn := Exn IndexError "list index out of range" None.

(** [CommentedMap.insert(pos, key, value)], without a [comment] argument
    and on a map without merge keys, where [merge_pos] is [-1]:
<<
    if key in self._ok:
        del self[key]
    keys = [k for k in self.keys() if k in self._ok]
    idx_min = pos
    idx_max = len(self._ok)
    self[key] = value  # at the end
    for idx in range(idx_min, idx_max):
        self.move_to_end(keys[idx])
    self._ok.add(key)
>>
    The key goes to the end and the keys from [pos] on are moved behind
    it one by one.  [keys] and [idx_max] are taken before the key is
    stored; a negative [pos] indexes [keys] from its end, and an index
    outside [keys] raises [IndexError] with the key already stored. *)
Definition insert (pos : Z) (key : string) (v : pyval) : M CommentedMap unit :=
  let* self := get_state in
  let* _ := (if bool_decide (key ∈ cm_ok self) then delitem key else ret tt) in
  let* self := get_state in
  let keys := filter (fun k => k ∈ cm_ok self) (map fst (cm_items self)) in
  let idx_min := pos in
  let idx_max := Z.of_nat (size (cm_ok self)) in
  let* _ := setitem key v in
  let* _ := for_each (range idx_min idx_max) (fun idx =>
              match list_index keys idx with
              | Some k => move_to_end k
              | None => raise IndexError_of_list
              end) in
  modify (fun m => {| cm_ca := cm_ca m; cm_ok := cm_ok m ∪ {[ key ]}; cm_items := cm_items m |}).

(** [type(v).__name__] *)
Definition type_name (v : pyval) : string :=
  match v with
  | PyNone => "NoneType"
  | PyBool _ => "bool"
  | PyInt _ => "int"
  | PyStr _ => "str"
  | PyScalarString SingleQuoted _ => "SingleQuotedScalarString"
  | PyScalarString DoubleQuoted _ => "DoubleQuotedScalarString"
  | PyScalarString Literal _ => "LiteralScalarString"
  | PyScalarString Folded _ => "FoldedScalarString"
  | PyCommentedMap _ => "CommentedMap"
  | PyCommentedSeq _ _ => "CommentedSeq"
  end.

(** The [AttributeError] of [v.name] on a value without that attribute. *)
Definition AttributeError_of (v : pyval) (name : string) : exn :=
  Exn AttributeError
      ("'" +:+ type_name v +:+ "' object has no attribute '" +:+ name +:+ "'") None.

(** [node.ca]: only the commented containers have one. *)
Definition ca_of (v : pyval) : option Comment :=
  match v with
  | PyCommentedMap m => Some (cm_ca m)
  | PyCommentedSeq ca _ => Some ca
  | _ => None
  end.

End Ruamel.

Import Ruamel.

(* ===================================================================== *)
(** * trestlebot/utils.py *)
(* ===================================================================== *)

Module Utils.

(** [populate_if_dict_field_not_exist(data, field_name, default_value)];
    [data] is the state. *)
Definition populate_if_dict_field_not_exist
    (field_name : string) (default_value : pyval) : M CommentedMap pyval :=
  let* current := get field_name in
  let* _ := (if is_None current
             then let* data := get_state in
                  insert (len data - 1) field_name default_value
             else ret tt) in
  getitem field_name.

(** The body of [for c in comment] for a comment group. *)
Definition append_group (comments : list string) (comment : list (option CommentToken))
  : list string :=
  fold_left (fun comments c =>
               match c with
               | Some t => comments ++ [value t]
               | None => comments
               end) comment comments.

(** The body of [for comment in comment_info]. *)
Definition append_slot (comments : list string) (comment : comment_slot) : list string :=
  match comment with
  | SlotNone => comments
  | SlotList [] => comments
  | SlotList l => append_group comments l
  | SlotToken t => comments ++ [value t]
  end.

(** [get_comments_from_yaml_data(yaml_data)]; [yaml_data.ca] raises
    [AttributeError] on a value that is not a commented container. *)
Definition get_comments_from_yaml_data (yaml_data : pyval) : outcome (list string) :=
  match ca_of yaml_data with
  | None => Raise (AttributeError_of yaml_data "ca")
  | Some ca =>
      match ca_items ca with
      | [] => Return []
      | items =>
          Return (fold_left (fun comments '(_, comment_info) =>
                               fold_left append_slot comment_info comments)
                            items [])
      end
  end.

End Utils.

Import Utils.

(* ===================================================================== *)
(** * trestlebot/entrypoints/entrypoint_base.py *)
(* ===================================================================== *)

Module Entrypoint.

(** ** The process state the entrypoint acts on *)

(** The text stream behind [--with-token] ([sys.stdin] by default, or the
    file [argparse.FileType("r")] opened): what is left to read, and
    whether it has been closed. *)
Record TextIO : Type := { buffer : string; closed : bool }.

(** The calls that leave the module, in the order they are made. *)
Inductive event : Type :=
| EvTokenRead
| EvTokenClose
| EvProviderFactory (access_token : string)
| EvIsGithubActions
| EvIsGitlabCI
| EvTrestleBot
| EvBotRun (patterns : list string)
| EvReportResults
| EvLogError (line : string).

Record world : Type := {
  token_stream : TextIO;
  environ : gmap string string;
  trace : list event
}.

Definition log_event (ev : event) : M world unit :=
  modify (fun w => {| token_stream := token_stream w;
                      environ := environ w;
                      trace := trace w ++ [ev] |}).

(** A reference to the token stream, as held in [args.with_token].  A file
    object is truthy; only [None] is not. *)
Inductive io_handle : Type := TokenStream.

(** [f.read()]: the rest of the stream, which is then at end of file;
    [ValueError] on a closed file. *)
Definition read (f : io_handle) : M world string :=
  let* _ := log_event EvTokenRead in
  let* w := get_state in
  if closed (token_stream w)
  then raise (Exn ValueError "I/O operation on closed file." None)
  else
    let* _ := modify (fun w => {| token_stream := {| buffer := ""; closed := false |};
                                  environ := environ w;
                                  trace := trace w |}) in
    ret (buffer (token_stream w)).

(** [f.close()].  The module never calls it; it is here so that "closed"
    can be spoken about. *)
Definition close (f : io_handle) : M world unit :=
  let* _ := log_event EvTokenClose in
  modify (fun w => {| token_stream := {| buffer := buffer (token_stream w); closed := true |};
                      environ := environ w;
                      trace := trace w |}).

(** [argparse.Namespace] after [setup_common_arguments]. *)
Record Namespace : Type := {
  verbose : nat;
  working_dir : string;
  dry_run : bool;
  branch : string;
  committer_name : string;
  committer_email : string;
  file_patterns : string;
  commit_message : string;
  author_name : option string;
  author_email : option string;
  target_branch : option string;
  with_token : option io_handle;
  pull_request_title : string
}.

(** The three reporter classes [set_reporter] chooses from. *)
Inductive Reporter : Type :=
| GitHubActionsResultsReporter
| GitLabCIResultsReporter
| ResultsReporter.

(** [EntrypointInvalidArgException(arg, msg)], with the [__cause__] of a
    [raise ... from]. *)
Definition InvalidArg (arg msg : string) (cause : option (exc_class * string)) : exn :=
  Exn EntrypointInvalidArgException ("Invalid args " +:+ arg +:+ ": " +:+ msg) cause.

(** [comma_sep_to_list(string)] *)
Definition comma_sep_to_list (str : option string) : list string :=
  let str := if truthy_str str then strip (default "" str) else "" in
  if truthy_str (Some str) then map strip (split "," str) else [].

(** The exit codes of [trestlebot/const.py], which is not among the
    sources: they are taken as given. *)
Record Const : Type := {
  ERROR_EXIT_CODE : Z;
  INVALID_ARGS_EXIT_CODE : Z
}.

(** Keyword arguments of [TrestleBot(...)] and of [bot.run(...)]. *)
Record TrestleBotArgs : Type := {
  bot_working_dir : string;
  bot_branch : string;
  bot_commit_name : string;
  bot_commit_email : string;
  bot_author_name : option string;
  bot_author_email : option string;
  bot_target_branch : option string
}.

Record RunArgs (GitProvider TaskBase : Type) : Type := {
  run_commit_message : string;
  run_pre_tasks : list TaskBase;
  run_patterns : list string;
  run_git_provider : option GitProvider;
  run_pull_request_title : string;
  run_dry_run : bool
}.
Arguments run_patterns {_ _} _.
Arguments run_git_provider {_ _} _.

Section Collaborators.

(** What the module imports from the rest of [trestlebot]: taken as
    given, each with whatever outcome it may have. *)
Variables GitProvider TaskBase TrestleBot BotResults : Type.
Variable provider_factory : string -> outcome GitProvider.
Variable is_github_actions : gmap string string -> bool.
Variable is_gitlab_ci : gmap string string -> bool.
Variable TrestleBot_new : TrestleBotArgs -> outcome TrestleBot.
Variable bot_run : TrestleBot -> RunArgs GitProvider TaskBase -> outcome BotResults.
Variable report_results : Reporter -> BotResults -> outcome unit.
Variable const : Const.

(** [EntrypointBase.set_git_provider(args)] *)
Definition set_git_provider (args : Namespace) : M world (option GitProvider) :=
  if truthy_str (target_branch args) then
    match with_token args with
    | None =>
        raise (InvalidArg "--with-token"
                 "with-token flag must be set when using target-branch" None)
    | Some f =>
        let* text := read f in
        let access_token := strip text in
        try_except
          (let* _ := log_event (EvProviderFactory access_token) in
           let* git_provider := lift_outcome (provider_factory access_token) in
           ret (Some git_provider))
          (fun e =>
             if isinstance e ValueError
             then Some (raise (InvalidArg "--server-url" (str_of_exn e) None))
             else if isinstance e RuntimeError
             then Some (raise (InvalidArg "--target-branch" (str_of_exn e)
                                 (Some (exn_class e, str_of_exn e))))
             else None)
    end
  else ret None.

(** [EntrypointBase.set_reporter()] *)
Definition set_reporter : M world Reporter :=
  let* w := get_state in
  let* _ := log_event EvIsGithubActions in
  if is_github_actions (environ w) then ret GitHubActionsResultsReporter
  else
    let* _ := log_event EvIsGitlabCI in
    if is_gitlab_ci (environ w) then ret GitLabCIResultsReporter
    else ret ResultsReporter.

(** [EntrypointBase.run_base(args, pre_tasks)] *)
Definition run_base (args : Namespace) (pre_tasks : list TaskBase) : M world unit :=
  let* git_provider := set_git_provider args in
  let* results_reporter := set_reporter in
  let* _ := log_event EvTrestleBot in
  let* bot := lift_outcome (TrestleBot_new
                {| bot_working_dir := working_dir args;
                   bot_branch := branch args;
                   bot_commit_name := committer_name args;
                   bot_commit_email := committer_email args;
                   bot_author_name := author_name args;
                   bot_author_email := author_email args;
                   bot_target_branch := target_branch args |}) in
  let patterns := comma_sep_to_list (Some (file_patterns args)) in
  let* _ := log_event (EvBotRun patterns) in
  let* results := lift_outcome (bot_run bot
                {| run_commit_message := commit_message args;
                   run_pre_tasks := pre_tasks;
                   run_patterns := patterns;
                   run_git_provider := git_provider;
                   run_pull_request_title := pull_request_title args;
                   run_dry_run := dry_run args |}) in
  let* _ := log_event EvReportResults in
  lift_outcome (report_results results_reporter results).

(** [handle_exception(exception, msg)] *)
Definition handle_exception (exception : exn) (msg : string) : M world Z :=
  let* _ := log_event (EvLogError (msg +:+ ": " +:+ str_of_exn exception)) in
  if isinstance exception EntrypointInvalidArgException
  then ret (INVALID_ARGS_EXIT_CODE const)
  else ret (ERROR_EXIT_CODE const).

(** Modelled from the spec: the [main] functions of the concrete
    entrypoints, which call [run_base] and turn its outcome into the
    process exit code, are not among the sources.  The design document
    has "map any raised error to an exit code" as the last step of a run
    and "success -> zero". *)
Definition exit_code_of_run (args : Namespace) (pre_tasks : list TaskBase) : M world Z :=
  try_except
    (let* _ := run_base args pre_tasks in ret 0%Z)
    (fun e => Some (handle_exception e "Exception occurred during execution")).

End Collaborators.

(** Modelled from the spec: [trestlebot/const.py] is not among the
    sources.  The design document asks for "a dedicated non-zero code for
    invalid-argument failures" and "a distinct generic non-zero code for
    all other failures". *)
Definition exit_codes_as_specified (c : Const) : Prop :=
  INVALID_ARGS_EXIT_CODE c <> 0%Z /\
  ERROR_EXIT_CODE c <> 0%Z /\
  INVALID_ARGS_EXIT_CODE c <> ERROR_EXIT_CODE c.

End Entrypoint.

Import Entrypoint.

(* ===================================================================== *)
(** * Properties of the text helpers *)
(* ===================================================================== *)

Section StripFacts.

Lemma lstrip_all_space (s : string) : all_space s = true -> lstrip s = "".
Proof.
  induction s as [|c r IH]; simpl; [reflexivity|].
  intros H. apply andb_true_iff in H as [Hc Hr]. rewrite Hc. auto.
Qed.

Lemma lstrip_head (s : string) :
  lstrip s = "" \/ exists c r, lstrip s = String c r /\ isspace c = false.
Proof.
  induction s as [|c r IH]; simpl; [now left|].
  destruct (isspace c) eqn:Hc; [exact IH|]. right. eauto.
Qed.

Lemma lstrip_empty_all_space (s : string) : lstrip s = "" -> all_space s = true.
Proof.
  induction s as [|c r IH]; simpl; [reflexivity|].
  destruct (isspace c); [exact IH | discriminate].
Qed.

Lemma rstrip_cons_nonspace (c : ascii) (r : string) :
  isspace c = false -> rstrip (String c r) = String c (rstrip r).
Proof. intros Hc. simpl. rewrite Hc. now destruct (rstrip r). Qed.

Lemma rstrip_idempotent (s : string) : rstrip (rstrip s) = rstrip s.
Proof.
  induction s as [|c r IH]; simpl; [reflexivity|].
  destruct (rstrip r) as [|d t] eqn:Hr.
  - destruct (isspace c) eqn:Hc; [reflexivity|]. simpl. now rewrite Hc.
  - change (rstrip (String c (String d t)) = String c (String d t)).
    simpl in IH |- *. now rewrite IH.
Qed.

Lemma strip_empty_iff (s : string) : strip s = "" <-> all_space s = true.
Proof.
  unfold strip. split.
  - intros H. destruct (lstrip_head s) as [E | (c & r & E & Hc)].
    + now apply lstrip_empty_all_space.
    + rewrite E, (rstrip_cons_nonspace _ _ Hc) in H. discriminate.
  - intros H. now rewrite (lstrip_all_space _ H).
Qed.

(** A stripped string has no whitespace left at either end. *)
Lemma strip_fixpoint (s : string) :
  lstrip (strip s) = strip s /\ rstrip (strip s) = strip s.
Proof.
  unfold strip. split; [|apply rstrip_idempotent].
  destruct (lstrip_head s) as [E | (c & r & E & Hc)]; rewrite E.
  - reflexivity.
  - rewrite (rstrip_cons_nonspace _ _ Hc). simpl. now rewrite Hc.
Qed.

End StripFacts.

(** C7. [comma_sep_to_list] strips the whole string, splits it on commas
    and strips every piece, so that no piece keeps whitespace at either
    end; [" a, b ,c"] gives [["a"; "b"; "c"]]; an input that is empty or
    all whitespace gives the empty list, and so does [None]. *)
Theorem comma_sep_to_list_correct (s : string) :
  (all_space s = true -> comma_sep_to_list (Some s) = []) /\
  (all_space s = false ->
     comma_sep_to_list (Some s) = map strip (split "," (strip s)) /\
     Forall (fun x => lstrip x = x /\ rstrip x = x) (comma_sep_to_list (Some s))) /\
  comma_sep_to_list (Some " a, b ,c") = ["a"; "b"; "c"] /\
  comma_sep_to_list (Some "") = [] /\
  comma_sep_to_list None = [].
Proof.
  assert (Hblank : all_space s = true -> comma_sep_to_list (Some s) = []).
  { intros H. unfold comma_sep_to_list.
    destruct s as [|c r]; [reflexivity|].
    apply strip_empty_iff in H.
    change (truthy_str (Some (String c r))) with true.
    change (default "" (Some (String c r))) with (String c r).
    cbv beta iota zeta. now rewrite H. }
  assert (Hsplit : all_space s = false ->
            comma_sep_to_list (Some s) = map strip (split "," (strip s))).
  { intros H. unfold comma_sep_to_list.
    destruct s as [|c r]; [discriminate|].
    change (truthy_str (Some (String c r))) with true.
    change (default "" (Some (String c r))) with (String c r).
    cbv beta iota zeta.
    destruct (strip (String c r)) as [|d t] eqn:E; [|reflexivity].
    apply strip_empty_iff in E. congruence. }
  split; [exact Hblank|]. split; [|repeat split; reflexivity].
  intros H. split; [exact (Hsplit H)|].
  rewrite (Hsplit H). apply Forall_map, Forall_forall.
  intros x _. apply strip_fixpoint.
Qed.

Lemma comma_sep_to_list_correct_witness :
  all_space "  " = true /\ comma_sep_to_list (Some "  ") = [] /\
  all_space "x , y" = false /\ comma_sep_to_list (Some "x , y") = ["x"; "y"].
Proof.
  split; [reflexivity|]. split.
  - apply (proj1 (comma_sep_to_list_correct "  ")). reflexivity.
  - split; [reflexivity|].
    rewrite (proj1 (proj1 (proj2 (comma_sep_to_list_correct "x , y")) eq_refl)).
    reflexivity.
Defined.

(* ===================================================================== *)
(** * Properties of the entrypoint *)
(* ===================================================================== *)

(** Arguments and a process state to evaluate the entrypoint on: the
    required options filled in, the defaults elsewhere. *)
Definition example_args (target : option string) (token : option io_handle) : Namespace :=
  {| verbose := 0; working_dir := "."; dry_run := false;
     branch := "update"; committer_name := "bot"; committer_email := "bot@example.com";
     file_patterns := "."; commit_message := "chore: automatic updates";
     author_name := None; author_email := None;
     target_branch := target; with_token := token;
     pull_request_title := "Automatic updates from trestlebot" |}.

Definition example_world (input : string) (env : gmap string string) : world :=
  {| token_stream := {| buffer := input; closed := false |};
     environ := env; trace := [] |}.

(** Unfolds the monad and the stream primitives. *)
Ltac run_monad :=
  unfold read, close, log_event, bind, ret, raise, try_except, lift_outcome,
         get_state, modify in *; cbn [fst snd trace token_stream environ closed buffer] in *.

(** C2. With [target_branch] unset ([None] or the empty string),
    [set_git_provider] returns [None] and does nothing else, whatever
    [with_token] holds. *)
Theorem set_git_provider_unset
    (GitProvider : Type) (provider_factory : string -> outcome GitProvider)
    (args : Namespace) (w : world) :
  truthy_str (target_branch args) = false ->
  set_git_provider GitProvider provider_factory args w = (Return None, w).
Proof. intros H. unfold set_git_provider. now rewrite H. Qed.

Lemma set_git_provider_unset_witness :
  truthy_str (target_branch (example_args (Some "") (Some TokenStream))) = false /\
  set_git_provider string (fun tok => Return tok)
    (example_args (Some "") (Some TokenStream)) (example_world "s3cret" ∅)
  = (Return None, example_world "s3cret" ∅).
Proof.
  split; [reflexivity|].
  apply (set_git_provider_unset string (fun tok => Return tok)). reflexivity.
Defined.

(** C1, as the code has it.  With [target_branch] set and [with_token]
    being [None], [set_git_provider] raises
    [EntrypointInvalidArgException("--with-token", ...)] and leaves the
    process state as it was: the stream is not read and the provider
    factory is not called. *)
Theorem set_git_provider_missing_token
    (GitProvider : Type) (provider_factory : string -> outcome GitProvider)
    (args : Namespace) (w : world) :
  truthy_str (target_branch args) = true ->
  with_token args = None ->
  set_git_provider GitProvider provider_factory args w
  = (Raise (InvalidArg "--with-token"
              "with-token flag must be set when using target-branch" None), w).
Proof. intros Ht Hw. unfold set_git_provider. now rewrite Ht, Hw. Qed.

Lemma set_git_provider_missing_token_witness :
  set_git_provider string (fun tok => Return tok)
    (example_args (Some "main") None) (example_world "" ∅)
  = (Raise (Exn EntrypointInvalidArgException
              "Invalid args --with-token: with-token flag must be set when using target-branch"
              None),
     example_world "" ∅).
Proof.
  apply (set_git_provider_missing_token string (fun tok => Return tok)
           (example_args (Some "main") None) (example_world "" ∅));
    reflexivity.
Defined.

(** C1, as stated, fails when the token is empty rather than missing:
    with [--target-branch main] and an empty token stream the stream is
    read and the provider factory is called with the empty token,
    whatever the factory is; a factory that accepts it makes the call
    succeed. *)
Lemma set_git_provider_empty_token_calls_factory :
  truthy_str (target_branch (example_args (Some "main") (Some TokenStream))) = true /\
  strip (buffer (token_stream (example_world "" ∅))) = "" /\
  (forall (GitProvider : Type) (provider_factory : string -> outcome GitProvider),
     trace (snd (set_git_provider GitProvider provider_factory
                   (example_args (Some "main") (Some TokenStream)) (example_world "" ∅)))
     = [EvTokenRead; EvProviderFactory ""]) /\
  fst (set_git_provider string (fun tok => Return tok)
         (example_args (Some "main") (Some TokenStream)) (example_world "" ∅))
  = Return (Some "").
Proof.
  split; [reflexivity|]. split; [reflexivity|]. split; [|reflexivity].
  intros GP pf. unfold set_git_provider. run_monad. cbn.
  destruct (pf "") as [p|e]; [reflexivity|].
  destruct (isinstance e ValueError); [reflexivity|].
  destruct (isinstance e RuntimeError); reflexivity.
Qed.

Lemma isinstance_InvalidArg_not_provider_error (e : exn) :
  isinstance e ValueError = true \/ isinstance e RuntimeError = true ->
  isinstance e EntrypointInvalidArgException = false.
Proof. destruct e as [[] m c]; cbn; intuition discriminate. Qed.

(** C5, as the code has it.  With [target_branch] set and a readable
    token stream, a [ValueError] raised by the provider factory comes out
    as [EntrypointInvalidArgException("--server-url", str(e))] and a
    [RuntimeError] as [EntrypointInvalidArgException("--target-branch",
    str(e))] with [e] as its cause; for these two classes what is raised
    is an [EntrypointInvalidArgException], never [e] itself.  An error of
    any other class is not caught: it leaves [set_git_provider] as it
    is. *)
Theorem set_git_provider_wraps_provider_error
    (GitProvider : Type) (provider_factory : string -> outcome GitProvider)
    (args : Namespace) (w : world) (f : io_handle) (e : exn) :
  truthy_str (target_branch args) = true ->
  with_token args = Some f ->
  closed (token_stream w) = false ->
  provider_factory (strip (buffer (token_stream w))) = Raise e ->
  exists raised,
    fst (set_git_provider GitProvider provider_factory args w) = Raise raised /\
    (isinstance e ValueError = true ->
       raised = InvalidArg "--server-url" (str_of_exn e) None) /\
    (isinstance e ValueError = false -> isinstance e RuntimeError = true ->
       raised = InvalidArg "--target-branch" (str_of_exn e)
                  (Some (exn_class e, str_of_exn e))) /\
    (isinstance e ValueError = true \/ isinstance e RuntimeError = true ->
       isinstance raised EntrypointInvalidArgException = true /\ raised <> e) /\
    (isinstance e ValueError = false -> isinstance e RuntimeError = false ->
       raised = e).
Proof.
  intros Ht Hw Hc Hf.
  pose proof (isinstance_InvalidArg_not_provider_error e) as Hne.
  unfold set_git_provider. rewrite Ht, Hw. run_monad. rewrite Hc. cbn.
  rewrite Hf.
  destruct (isinstance e ValueError) eqn:Hv.
  - eexists. split; [reflexivity|]. repeat split; try discriminate.
    intros Heq. rewrite <- Heq in Hne. specialize (Hne (or_introl eq_refl)).
    discriminate Hne.
  - destruct (isinstance e RuntimeError) eqn:Hr.
    + eexists. split; [reflexivity|]. repeat split; try discriminate.
      intros Heq. rewrite <- Heq in Hne. specialize (Hne (or_intror eq_refl)).
      discriminate Hne.
    + eexists. split; [reflexivity|].
      split; [discriminate|]. split; [discriminate|].
      split; [intros [?|?]; discriminate | reflexivity].
Qed.

Lemma set_git_provider_wraps_provider_error_witness :
  fst (set_git_provider string
         (fun _ => Raise (Exn RuntimeError "Could not detect Git provider" None))
         (example_args (Some "main") (Some TokenStream)) (example_world "tok" ∅))
  = Raise (Exn EntrypointInvalidArgException
             "Invalid args --target-branch: Could not detect Git provider"
             (Some (RuntimeError, "Could not detect Git provider"))).
Proof.
  destruct (set_git_provider_wraps_provider_error string
              (fun _ => Raise (Exn RuntimeError "Could not detect Git provider" None))
              (example_args (Some "main") (Some TokenStream)) (example_world "tok" ∅)
              TokenStream (Exn RuntimeError "Could not detect Git provider" None)
              eq_refl eq_refl eq_refl eq_refl)
    as (raised & Hr & _ & Hb & _).
  rewrite Hr, (Hb eq_refl eq_refl). reflexivity.
Defined.

(** C5, as stated, fails: only [ValueError] and [RuntimeError] are caught.
    A [ConnectionError] of the provider factory (the server cannot be
    reached) leaves [set_git_provider] unwrapped, and it is not an
    [EntrypointInvalidArgException]. *)
Lemma set_git_provider_other_error_escapes :
  fst (set_git_provider string
         (fun _ => Raise (Exn ConnectionError "Connection refused" None))
         (example_args (Some "main") (Some TokenStream)) (example_world "tok" ∅))
  = Raise (Exn ConnectionError "Connection refused" None) /\
  isinstance (Exn ConnectionError "Connection refused" None)
    EntrypointInvalidArgException = false.
Proof. split; vm_compute; reflexivity. Qed.

(** An exception of the factory that is neither a [ValueError] nor a
    [RuntimeError] is not caught. *)
Remark set_git_provider_other_error_propagates
    (GitProvider : Type) (provider_factory : string -> outcome GitProvider)
    (args : Namespace) (w : world) (f : io_handle) (e : exn) :
  truthy_str (target_branch args) = true ->
  with_token args = Some f ->
  closed (token_stream w) = false ->
  provider_factory (strip (buffer (token_stream w))) = Raise e ->
  isinstance e ValueError = false -> isinstance e RuntimeError = false ->
  fst (set_git_provider GitProvider provider_factory args w) = Raise e.
Proof.
  intros Ht Hw Hc Hf Hv Hr.
  unfold set_git_provider. rewrite Ht, Hw. run_monad. rewrite Hc. cbn.
  now rewrite Hf, Hv, Hr.
Qed.

(** C9. [set_reporter] asks for GitHub Actions first: where both
    platforms are detected the GitHub Actions reporter is returned (and
    GitLab CI is not even asked about); the plain [ResultsReporter] is
    returned exactly when neither is detected. *)
Theorem set_reporter_precedence
    (is_github_actions is_gitlab_ci : gmap string string -> bool) (w : world) :
  (is_github_actions (environ w) = true -> is_gitlab_ci (environ w) = true ->
     fst (set_reporter is_github_actions is_gitlab_ci w)
     = Return GitHubActionsResultsReporter /\
     trace (snd (set_reporter is_github_actions is_gitlab_ci w))
     = trace w ++ [EvIsGithubActions]) /\
  (fst (set_reporter is_github_actions is_gitlab_ci w) = Return ResultsReporter <->
     is_github_actions (environ w) = false /\ is_gitlab_ci (environ w) = false).
Proof.
  unfold set_reporter. run_monad.
  destruct (is_github_actions (environ w)) eqn:Hgh; cbn.
  - split; [auto|]. split; [discriminate | intros [? _]; discriminate].
  - split; [discriminate|].
    destruct (is_gitlab_ci (environ w)) eqn:Hgl; cbn.
    + split; [discriminate | intros [_ ?]; discriminate].
    + split; auto.
Qed.

(** A detector in the style of the two platform checks: the variable is
    set to ["true"]. *)
Definition example_detect (var : string) (env : gmap string string) : bool :=
  bool_decide (env !! var = Some "true").

Definition example_ci_env : gmap string string :=
  <["GITHUB_ACTIONS" := "true"]> (<["GITLAB_CI" := "true"]> ∅).

Lemma set_reporter_precedence_witness :
  fst (set_reporter (example_detect "GITHUB_ACTIONS") (example_detect "GITLAB_CI")
         (example_world "" example_ci_env))
  = Return GitHubActionsResultsReporter.
Proof.
  apply (proj1 (set_reporter_precedence (example_detect "GITHUB_ACTIONS")
                  (example_detect "GITLAB_CI") (example_world "" example_ci_env)));
    vm_compute; reflexivity.
Defined.

Lemma try_except_bind_ret {S A B} (m : M S A) (c : B) (h : exn -> option (M S B)) (s : S) :
  try_except (let* _ := m in ret c) h s
  = match m s with
    | (Return _, s') => (Return c, s')
    | (Raise e, s') => match h e with
                       | Some handler => handler s'
                       | None => (Raise e, s')
                       end
    end.
Proof. unfold try_except, bind, ret. now destruct (m s) as [[] ?]. Qed.

(** C6.  [handle_exception] returns [const.INVALID_ARGS_EXIT_CODE] for an
    [EntrypointInvalidArgException] (or a subclass of it) and
    [const.ERROR_EXIT_CODE] for every other exception.  With exit codes as
    the design document has them, the two differ, neither is zero, and a
    run that raises nothing exits with zero. *)
Theorem handle_exception_exit_codes
    (const : Const) (exception : exn) (msg : string) (w : world) :
  exit_codes_as_specified const ->
  (isinstance exception EntrypointInvalidArgException = true ->
     fst (handle_exception const exception msg w) = Return (INVALID_ARGS_EXIT_CODE const)) /\
  (isinstance exception EntrypointInvalidArgException = false ->
     fst (handle_exception const exception msg w) = Return (ERROR_EXIT_CODE const)) /\
  fst (handle_exception const exception msg w) <> Return 0%Z /\
  (forall other msg' w',
     isinstance other EntrypointInvalidArgException
       <> isinstance exception EntrypointInvalidArgException ->
     fst (handle_exception const other msg' w')
       <> fst (handle_exception const exception msg w)) /\
  (forall (GitProvider TaskBase TrestleBot BotResults : Type)
          provider_factory is_github_actions is_gitlab_ci TrestleBot_new bot_run
          report_results args (pre_tasks : list TaskBase),
     let run := run_base GitProvider TaskBase TrestleBot BotResults provider_factory
                  is_github_actions is_gitlab_ci TrestleBot_new bot_run report_results
                  args pre_tasks in
     let exit_code := exit_code_of_run GitProvider TaskBase TrestleBot BotResults
                  provider_factory is_github_actions is_gitlab_ci TrestleBot_new bot_run
                  report_results const args pre_tasks in
     (fst (run w) = Return tt -> fst (exit_code w) = Return 0%Z) /\
     (forall e, fst (run w) = Raise e ->
        exit_code w
        = handle_exception const e "Exception occurred during execution" (snd (run w)))).
Proof.
  intros (Hi & He & Hd).
  split; [|split; [|split; [|split]]].
  - intros H. unfold handle_exception. run_monad. now rewrite H.
  - intros H. unfold handle_exception. run_monad. now rewrite H.
  - unfold handle_exception. run_monad.
    destruct (isinstance exception _); cbn; congruence.
  - intros other msg' w' Hneq. unfold handle_exception. run_monad.
    destruct (isinstance other _), (isinstance exception _); cbn; congruence.
  - intros GP TB Bot BR pf gh gl new brun rep args pre_tasks run exit_code.
    subst exit_code. unfold exit_code_of_run. fold run.
    rewrite try_except_bind_ret.
    destruct (run w) as [[[]|e] w'] eqn:Hrun; cbn [fst snd].
    + split; [reflexivity | discriminate].
    + split; [discriminate|]. intros e' [= <-]. reflexivity.
Qed.

Definition example_const : Const :=
  {| ERROR_EXIT_CODE := 1; INVALID_ARGS_EXIT_CODE := 2 |}.

Lemma example_const_as_specified : exit_codes_as_specified example_const.
Proof. repeat split; discriminate. Qed.

Lemma handle_exception_exit_codes_witness :
  exit_codes_as_specified example_const /\
  fst (handle_exception example_const (InvalidArg "--with-token" "missing" None) "failed"
         (example_world "" ∅)) = Return 2%Z /\
  fst (handle_exception example_const (Exn KeyError "'x'" None) "failed"
         (example_world "" ∅)) = Return 1%Z.
Proof.
  split; [exact example_const_as_specified|]. split.
  - apply (proj1 (handle_exception_exit_codes example_const
                    (InvalidArg "--with-token" "missing" None) "failed"
                    (example_world "" ∅) example_const_as_specified)). reflexivity.
  - apply (proj1 (proj2 (handle_exception_exit_codes example_const
                    (Exn KeyError "'x'" None) "failed" (example_world "" ∅)
                    example_const_as_specified))).
    reflexivity.
Defined.

(* ===================================================================== *)
(** * The token stream over a whole run *)
(* ===================================================================== *)

(** The events that touch the token stream. *)
Definition is_stream_event (ev : event) : bool :=
  match ev with
  | EvTokenRead | EvTokenClose => true
  | _ => false
  end.

(** A computation that leaves the token stream alone: the stream is as
    before and none of the events it adds is a read or a close. *)
Definition stream_untouched {A} (m : M world A) : Prop :=
  forall w, token_stream (snd (m w)) = token_stream w /\
            exists t, trace (snd (m w)) = trace w ++ t /\
                      Forall (fun ev => is_stream_event ev = false) t.

Section StreamUntouched.

Context {A B : Type}.

Lemma stream_untouched_ret (a : A) : stream_untouched (ret a).
Proof. intros w. split; [reflexivity|]. exists []. now rewrite app_nil_r. Qed.

Lemma stream_untouched_lift (o : outcome A) : stream_untouched (lift_outcome o).
Proof. intros w. split; [reflexivity|]. exists []. now rewrite app_nil_r. Qed.

Lemma stream_untouched_get_state : stream_untouched get_state.
Proof. intros w. split; [reflexivity|]. exists []. now rewrite app_nil_r. Qed.

Lemma stream_untouched_log (ev : event) :
  is_stream_event ev = false -> stream_untouched (log_event ev).
Proof.
  intros H w. split; [reflexivity|]. exists [ev]. split; [reflexivity|].
  now constructor.
Qed.

Lemma stream_untouched_bind (m : M world A) (k : A -> M world B) :
  stream_untouched m -> (forall a, stream_untouched (k a)) ->
  stream_untouched (bind m k).
Proof.
  intros Hm Hk w. unfold bind.
  destruct (Hm w) as (Hs & t & Ht & Hq).
  destruct (m w) as [[a|e] w1]; cbn [snd] in *.
  - destruct (Hk a w1) as (Hs' & t' & Ht' & Hq').
    split; [congruence|]. exists (t ++ t'). split.
    + now rewrite Ht', Ht, app_assoc.
    + now apply Forall_app.
  - split; [assumption|]. exists t. now split.
Qed.

End StreamUntouched.

Create HintDb stream.
#[local] Hint Resolve stream_untouched_ret stream_untouched_lift
  stream_untouched_get_state stream_untouched_log stream_untouched_bind : stream.

(** Abstracts the continuation of the first bind of the goal. *)
Ltac generalize_bind_rest :=
  match goal with
  | |- context [bind _ ?k] => generalize k
  end.

Section Run.

Variables GitProvider TaskBase TrestleBot BotResults : Type.
Variable provider_factory : string -> outcome GitProvider.
Variable is_github_actions : gmap string string -> bool.
Variable is_gitlab_ci : gmap string string -> bool.
Variable TrestleBot_new : TrestleBotArgs -> outcome TrestleBot.
Variable bot_run : TrestleBot -> RunArgs GitProvider TaskBase -> outcome BotResults.
Variable report_results : Reporter -> BotResults -> outcome unit.

Lemma set_reporter_stream_untouched :
  stream_untouched (set_reporter is_github_actions is_gitlab_ci).
Proof.
  unfold set_reporter.
  apply stream_untouched_bind; [auto with stream|]. intros w.
  apply stream_untouched_bind; [auto with stream|]. intros _.
  destruct (is_github_actions (environ w)); [auto with stream|].
  apply stream_untouched_bind; [auto with stream|]. intros _.
  destruct (is_gitlab_ci (environ w)); auto with stream.
Qed.

(** Whether [set_git_provider] gets as far as reading the stream. *)
Definition reads_token (args : Namespace) : bool :=
  truthy_str (target_branch args) && bool_decide (with_token args <> None).

(** What [set_git_provider] does to the stream: nothing at all, or one
    read followed by no other stream event; it never closes it. *)
Lemma set_git_provider_stream (args : Namespace) (w : world) :
  exists t,
    trace (snd (set_git_provider GitProvider provider_factory args w)) = trace w ++ t /\
    (if reads_token args
     then exists t', t = EvTokenRead :: t' /\
                     Forall (fun ev => is_stream_event ev = false) t'
     else t = []) /\
    closed (token_stream (snd (set_git_provider GitProvider provider_factory args w)))
    = closed (token_stream w).
Proof.
  unfold set_git_provider, reads_token.
  destruct (truthy_str (target_branch args)); cbn [andb];
    [|exists []; now rewrite app_nil_r].
  destruct (with_token args) as [f|]; cbn;
    [|exists []; now rewrite app_nil_r].
  run_monad. destruct (closed (token_stream w)) eqn:Hc; cbn.
  - exists [EvTokenRead]. repeat split; eauto.
  - destruct (provider_factory _) as [p|e]; cbn.
    + eexists. rewrite <- app_assoc. split; [reflexivity|]. split; [|reflexivity].
      eexists. split; [reflexivity|]. now repeat constructor.
    + destruct (isinstance e ValueError); [|destruct (isinstance e RuntimeError)]; cbn;
        (eexists; rewrite <- app_assoc; split; [reflexivity|]; split; [|reflexivity];
         eexists; split; [reflexivity|]; now repeat constructor).
Qed.

(** C8, as the code has it.  On every path of [run_base], whatever the
    collaborators do, the token stream is read at most once: exactly once,
    as the first thing the run does, when [target_branch] is set and
    [with_token] is not [None], and not at all otherwise.  Nothing in the
    run closes the stream: it ends as open or closed as it began. *)
Theorem run_base_token_stream (args : Namespace) (pre_tasks : list TaskBase) (w : world) :
  exists t,
    trace (snd (run_base GitProvider TaskBase TrestleBot BotResults provider_factory
                  is_github_actions is_gitlab_ci TrestleBot_new bot_run report_results
                  args pre_tasks w)) = trace w ++ t /\
    (reads_token args = true ->
       exists t', t = EvTokenRead :: t' /\
                  Forall (fun ev => is_stream_event ev = false) t') /\
    (reads_token args = false -> Forall (fun ev => is_stream_event ev = false) t) /\
    closed (token_stream (snd (run_base GitProvider TaskBase TrestleBot BotResults
                  provider_factory is_github_actions is_gitlab_ci TrestleBot_new bot_run
                  report_results args pre_tasks w)))
    = closed (token_stream w).
Proof.
  unfold run_base.
  match goal with |- context [bind (set_git_provider _ _ args) ?k] =>
    assert (Hrest : forall git_provider, stream_untouched (k git_provider))
  end.
  { intros git_provider.
    apply stream_untouched_bind; [apply set_reporter_stream_untouched|]. intros r.
    apply stream_untouched_bind; [auto with stream|]. intros _.
    apply stream_untouched_bind; [auto with stream|]. intros bot.
    apply stream_untouched_bind; [auto with stream|]. intros _.
    apply stream_untouched_bind; [auto with stream|]. intros results.
    apply stream_untouched_bind; auto with stream. }
  revert Hrest. generalize_bind_rest.
  intros k Hrest. unfold bind.
  destruct (set_git_provider_stream args w) as (t & Ht & Hshape & Hclosed).
  destruct (set_git_provider _ _ args w) as [[git_provider|e] w1]; cbn [snd] in *.
  - destruct (Hrest git_provider w1) as (Hs & t2 & Ht2 & Hq).
    exists (t ++ t2). split; [now rewrite Ht2, Ht, app_assoc|].
    split; [|split].
    + intros Hr. rewrite Hr in Hshape. destruct Hshape as (t' & -> & Hq').
      exists (t' ++ t2). split; [reflexivity|]. now apply Forall_app.
    + intros Hr. rewrite Hr in Hshape. now subst t.
    + now rewrite Hs.
  - exists t. split; [assumption|]. split; [|split]; [| |assumption].
    + intros Hr. now rewrite Hr in Hshape.
    + intros Hr. rewrite Hr in Hshape. subst t. constructor.
Qed.

End Run.

(** Collaborators to evaluate a run with: a factory that accepts any
    token or refuses every one, a bot whose run succeeds or fails. *)
Definition example_run
    (provider_factory : string -> outcome string) (bot_run_outcome : outcome unit)
  : Namespace -> list unit -> M world unit :=
  run_base string unit unit unit provider_factory
    (example_detect "GITHUB_ACTIONS") (example_detect "GITLAB_CI")
    (fun _ => Return tt) (fun _ _ => bot_run_outcome) (fun _ _ => Return tt).

Lemma run_base_token_stream_witness :
  reads_token (example_args (Some "main") (Some TokenStream)) = true /\
  exists t',
    trace (snd (example_run (fun tok => Return tok) (Return tt)
                  (example_args (Some "main") (Some TokenStream)) []
                  (example_world "tok" ∅)))
    = EvTokenRead :: t' /\
    Forall (fun ev => is_stream_event ev = false) t' /\
    closed (token_stream (snd (example_run (fun tok => Return tok) (Return tt)
                  (example_args (Some "main") (Some TokenStream)) []
                  (example_world "tok" ∅)))) = false.
Proof.
  split; [reflexivity|].
  destruct (run_base_token_stream string unit unit unit (fun tok => Return tok)
              (example_detect "GITHUB_ACTIONS") (example_detect "GITLAB_CI")
              (fun _ => Return tt) (fun _ _ => Return tt) (fun _ _ => Return tt)
              (example_args (Some "main") (Some TokenStream)) []
              (example_world "tok" ∅))
    as (t & Ht & Hread & _ & Hc).
  destruct (Hread eq_refl) as (t' & -> & Hq).
  exists t'. split; [exact Ht|]. split; [exact Hq | exact Hc].
Defined.

(** C8, as stated, fails on its last part: on the successful path, on a
    provider failure and on a bot failure alike, the run ends with the
    token stream read and still open, and no close in the trace. *)
Lemma run_base_leaves_token_stream_open :
  example_run (fun tok => Return tok) (Return tt)
    (example_args (Some "main") (Some TokenStream)) [] (example_world "tok" ∅)
  = (Return tt,
     {| token_stream := {| buffer := ""; closed := false |};
        environ := ∅;
        trace := [EvTokenRead; EvProviderFactory "tok"; EvIsGithubActions; EvIsGitlabCI;
                  EvTrestleBot; EvBotRun ["."]; EvReportResults] |}) /\
  example_run (fun _ => Raise (Exn RuntimeError "no provider" None)) (Return tt)
    (example_args (Some "main") (Some TokenStream)) [] (example_world "tok" ∅)
  = (Raise (InvalidArg "--target-branch" "no provider" (Some (RuntimeError, "no provider"))),
     {| token_stream := {| buffer := ""; closed := false |};
        environ := ∅;
        trace := [EvTokenRead; EvProviderFactory "tok"] |}) /\
  example_run (fun tok => Return tok) (Raise (Exn OSError "push failed" None))
    (example_args (Some "main") (Some TokenStream)) [] (example_world "tok" ∅)
  = (Raise (Exn OSError "push failed" None),
     {| token_stream := {| buffer := ""; closed := false |};
        environ := ∅;
        trace := [EvTokenRead; EvProviderFactory "tok"; EvIsGithubActions; EvIsGitlabCI;
                  EvTrestleBot; EvBotRun ["."]] |}).
Proof. repeat apply conj; vm_compute; reflexivity. Qed.

(* ===================================================================== *)
(** * Comments of a document *)
(* ===================================================================== *)

(** The tokens one position of a comment-association entry holds. *)
Definition slot_tokens (s : comment_slot) : list CommentToken :=
  match s with
  | SlotNone => []
  | SlotToken t => [t]
  | SlotList l => omap id l
  end.

(** The tokens of the per-key table of a node, entry after entry. *)
Definition items_tokens (ca : Comment) : list CommentToken :=
  flat_map (fun entry => flat_map slot_tokens (snd entry)) (ca_items ca).

(** After the claim's words, for comparison with the code: every comment
    token attached anywhere on the nodes of a document, that is, for each
    commented node, the comment on the node itself, its per-key table and
    its end comments, followed by the tokens of its children. *)
Fixpoint document_comment_tokens (v : pyval) : list CommentToken :=
  match v with
  | PyCommentedMap m =>
      (flat_map slot_tokens (ca_comment (cm_ca m)) ++ items_tokens (cm_ca m)
         ++ ca_end (cm_ca m))
      ++ (fix children (l : list (string * pyval)) : list CommentToken :=
            match l with
            | [] => []
            | (_, x) :: r => document_comment_tokens x ++ children r
            end) (cm_items m)
  | PyCommentedSeq ca elems =>
      (flat_map slot_tokens (ca_comment ca) ++ items_tokens ca ++ ca_end ca)
      ++ (fix children (l : list pyval) : list CommentToken :=
            match l with
            | [] => []
            | x :: r => document_comment_tokens x ++ children r
            end) elems
  | _ => []
  end.

(** After the claim's words: a comment is a token whose text carries the
    marker, [#] after optional whitespace.  The token the loader keeps for
    a run of blank lines has no marker and is not a comment. *)
Definition is_comment (t : CommentToken) : bool :=
  match lstrip (value t) with
  | String "#" _ => true
  | _ => false
  end.

Definition document_comments (v : pyval) : list CommentToken :=
  List.filter is_comment (document_comment_tokens v).

Section CommentFolds.

Lemma append_group_spec (group : list (option CommentToken)) (comments : list string) :
  append_group comments group = comments ++ map value (omap id group).
Proof.
  unfold append_group. revert comments.
  induction group as [|[t|] r IH]; intros comments; cbn.
  - now rewrite app_nil_r.
  - rewrite IH, <- app_assoc. reflexivity.
  - apply IH.
Qed.

Lemma append_slot_spec (s : comment_slot) (comments : list string) :
  append_slot comments s = comments ++ map value (slot_tokens s).
Proof.
  destruct s as [|t|[|c r]]; cbn [append_slot slot_tokens];
    rewrite ?append_group_spec; cbn; now rewrite ?app_nil_r.
Qed.

Lemma fold_append_slot_spec (info : list comment_slot) (comments : list string) :
  fold_left append_slot info comments
  = comments ++ map value (flat_map slot_tokens info).
Proof.
  revert comments. induction info as [|s r IH]; intros comments; cbn.
  - now rewrite app_nil_r.
  - now rewrite IH, append_slot_spec, map_app, app_assoc.
Qed.

Lemma fold_entries_spec (items : list (ca_key * list comment_slot)) (comments : list string) :
  fold_left (fun comments '(_, comment_info) =>
               fold_left append_slot comment_info comments) items comments
  = comments ++ map value (flat_map (fun entry => flat_map slot_tokens (snd entry)) items).
Proof.
  revert comments. induction items as [|[k info] r IH]; intros comments; cbn.
  - now rewrite app_nil_r.
  - now rewrite IH, fold_append_slot_spec, map_app, app_assoc.
Qed.

End CommentFolds.

(** X18.  On a document whose root is a commented mapping or sequence,
    [get_comments_from_yaml_data] returns the text of the tokens held in
    the root's own per-key table [ca.items], comments and blank-line
    tokens alike: one entry per token, entries of the table in its order,
    within an entry slot after slot, single tokens and groups flattened,
    [None]s and empty groups skipped.  It returns the empty list when
    that table is empty. *)
Theorem get_comments_from_yaml_data_top_level (yaml_data : pyval) (ca : Comment) :
  ca_of yaml_data = Some ca ->
  get_comments_from_yaml_data yaml_data = Return (map value (items_tokens ca)) /\
  (forall comments, get_comments_from_yaml_data yaml_data = Return comments ->
     length comments = length (items_tokens ca)) /\
  (ca_items ca = [] -> get_comments_from_yaml_data yaml_data = Return []).
Proof.
  intros Hca.
  assert (Hget : get_comments_from_yaml_data yaml_data = Return (map value (items_tokens ca))).
  { unfold get_comments_from_yaml_data, items_tokens. rewrite Hca.
    destruct (ca_items ca) as [|entry r] eqn:Hitems; [reflexivity|].
    now rewrite fold_entries_spec. }
  split; [exact Hget|]. split.
  - intros comments. rewrite Hget. intros [= <-]. apply length_map.
  - intros Hempty. rewrite Hget. unfold items_tokens. now rewrite Hempty.
Qed.

(** Documents to evaluate the comment extraction on. *)
Definition example_map (ca : Comment) (items : list (string * pyval)) : CommentedMap :=
  {| cm_ca := ca; cm_ok := list_to_set (map fst items); cm_items := items |}.

(** A root table with a single token in the end-of-line slot of [a] and,
    for [b], a group that holds a [None] and a token, and an empty
    group. *)
Definition example_comments : Comment :=
  {| ca_comment := [];
     ca_items := [(KeyStr "a", [SlotNone; SlotNone; SlotToken {| value := "# first" |}; SlotNone]);
                  (KeyStr "b", [SlotNone; SlotList [None; Some {| value := "# tail" |}];
                                SlotNone; SlotList []])];
     ca_end := [] |}.

Definition example_commented_doc : pyval :=
  PyCommentedMap (example_map example_comments [("a", PyInt 1); ("b", PyInt 2)]).

Definition newline : string := String "010" "".

(** [a:] / [  b: 1  # note] / [c: 2]: the comment is held by the inner
    mapping, in the end-of-line slot of [b]. *)
Definition example_nested_doc : pyval :=
  PyCommentedMap (example_map no_comment
    [("a", PyCommentedMap (example_map
             {| ca_comment := [];
                ca_items := [(KeyStr "b", [SlotNone; SlotNone;
                                           SlotToken {| value := "# note" +:+ newline |};
                                           SlotNone])];
                ca_end := [] |}
             [("b", PyInt 1)]));
     ("c", PyInt 2)]).

(** [a: 1] / an empty line / [b: 2]: no comment, but the loader keeps the
    blank line as a token in the end-of-line slot of [a]. *)
Definition example_blank_line_doc : pyval :=
  PyCommentedMap (example_map
    {| ca_comment := [];
       ca_items := [(KeyStr "a", [SlotNone; SlotNone;
                                  SlotToken {| value := newline +:+ newline |}; SlotNone])];
       ca_end := [] |}
    [("a", PyInt 1); ("b", PyInt 2)]).

Lemma get_comments_from_yaml_data_top_level_witness :
  ca_of example_commented_doc = Some example_comments /\
  get_comments_from_yaml_data example_commented_doc = Return ["# first"; "# tail"].
Proof.
  assert (Hca : ca_of example_commented_doc = Some example_comments) by reflexivity.
  split; [exact Hca|].
  rewrite (proj1 (get_comments_from_yaml_data_top_level
                    example_commented_doc example_comments Hca)).
  reflexivity.
Defined.

(** C4.  The function does not do what the claim, and its own docstring
    ("Get all comments from yaml_data"), say.  It reads the comment table
    of the root only: on a document whose one comment is attached to a
    nested mapping it returns the empty list.  It takes every token of that
    table for a comment: on a document without any comment but with a
    blank line it returns the blank-line token.  And on an empty document,
    which loads as [None], it raises [AttributeError] instead of returning
    the empty list. *)
Theorem get_comments_from_yaml_data_misses_nested :
  document_comments example_nested_doc = [{| value := "# note" +:+ newline |}] /\
  get_comments_from_yaml_data example_nested_doc = Return [] /\
  document_comments example_blank_line_doc = [] /\
  get_comments_from_yaml_data example_blank_line_doc = Return [newline +:+ newline] /\
  document_comments PyNone = [] /\
  get_comments_from_yaml_data PyNone
  = Raise (Exn AttributeError "'NoneType' object has no attribute 'ca'" None).
Proof. repeat apply conj; vm_compute; reflexivity. Qed.

(* ===================================================================== *)
(** * Inserting into a [CommentedMap] *)
(* ===================================================================== *)

(** A map as a document without merge keys loads it: every key once, and
    [_ok] exactly the keys of the dict. *)
Definition own_keys (m : CommentedMap) : Prop :=
  NoDup (keys m) /\ cm_ok m = list_to_set (keys m).

Section AssocFacts.

Context {V : Type}.
Implicit Types (l : list (string * V)) (k : string) (v : V).

Lemma assoc_get_None l k : assoc_get k l = None <-> k ∉ map fst l.
Proof.
  induction l as [|[k' v'] r IH]; cbn.
  - split; [intros _; apply not_elem_of_nil | reflexivity].
  - destruct (String.eqb_spec k k') as [->|Hne].
    + split; [discriminate|]. intros H. exfalso. apply H. left.
    + rewrite IH. rewrite not_elem_of_cons. tauto.
Qed.

Lemma assoc_get_Some_elem l k v : assoc_get k l = Some v -> k ∈ map fst l.
Proof.
  intros H. destruct (decide (k ∈ map fst l)) as [|Hn]; [assumption|].
  apply assoc_get_None in Hn. congruence.
Qed.

Lemma assoc_set_fresh l k v : k ∉ map fst l -> assoc_set k v l = l ++ [(k, v)].
Proof.
  induction l as [|[k' v'] r IH]; cbn; [reflexivity|].
  rewrite not_elem_of_cons. intros [Hne Hr].
  destruct (String.eqb_spec k k'); [contradiction|]. now rewrite IH.
Qed.

Lemma assoc_get_middle l1 l2 k v :
  k ∉ map fst l1 -> assoc_get k (l1 ++ (k, v) :: l2) = Some v.
Proof.
  induction l1 as [|[k' v'] r IH]; cbn.
  - intros _. now rewrite String.eqb_refl.
  - rewrite not_elem_of_cons. intros [Hne Hr].
    destruct (String.eqb_spec k k'); [contradiction|]. auto.
Qed.

Lemma assoc_del_middle l1 l2 k v :
  k ∉ map fst l1 -> assoc_del k (l1 ++ (k, v) :: l2) = l1 ++ l2.
Proof.
  induction l1 as [|[k' v'] r IH]; cbn.
  - intros _. now rewrite String.eqb_refl.
  - rewrite not_elem_of_cons. intros [Hne Hr].
    destruct (String.eqb_spec k k'); [contradiction|]. now rewrite IH.
Qed.

Lemma assoc_del_keys l k :
  NoDup (map fst l) ->
  (k ∉ map fst (assoc_del k l)) /\ NoDup (map fst (assoc_del k l)).
Proof.
  induction l as [|[k' v'] r IH]; cbn.
  - intros _. split; [apply not_elem_of_nil | constructor].
  - intros Hnd. apply NoDup_cons in Hnd as [Hk' Hr].
    destruct (String.eqb_spec k k') as [->|Hne]; [now split|].
    destruct (IH Hr) as [Hk Hnd']. cbn. split.
    + rewrite not_elem_of_cons. now split.
    + apply NoDup_cons. split; [|assumption].
      intros Hin. apply Hk'. clear -Hin.
      induction r as [|[k2 v2] r IH]; cbn in *; [assumption|].
      destruct (String.eqb k k2); [now right|].
      cbn in Hin. apply elem_of_cons in Hin as [->|Hin]; [left | right; auto].
Qed.

Lemma assoc_del_length l k v :
  assoc_get k l = Some v -> S (length (assoc_del k l)) = length l.
Proof.
  induction l as [|[k' v'] r IH]; cbn; [discriminate|].
  destruct (String.eqb k k'); [reflexivity|]. intros H. cbn. now rewrite IH.
Qed.

End AssocFacts.

Local Set Warnings "-clear-no-such-hyp".

Section InsertFacts.

Variable ca : Comment.
Implicit Types (items rest : list (string * pyval)) (ok : gset string).

Lemma setitem_fresh items ok k v :
  k ∉ map fst items ->
  setitem k v {| cm_ca := ca; cm_ok := ok; cm_items := items |}
  = (Return tt, {| cm_ca := ca; cm_ok := ok ∪ {[ k ]}; cm_items := items ++ [(k, v)] |}).
Proof.
  intros Hk. unfold setitem, modify. cbn [cm_ca cm_ok cm_items].
  rewrite (proj2 (assoc_get_None items k) Hk), (assoc_set_fresh _ _ _ Hk).
  now destruct v.
Qed.

(** Moving the keys of a block of entries to the end, one after the
    other, moves the block behind what followed it. *)
Lemma move_block l2 : forall l1 rest ok,
  NoDup (map fst (l1 ++ l2)) ->
  for_each (map fst l2) move_to_end
    {| cm_ca := ca; cm_ok := ok; cm_items := l1 ++ l2 ++ rest |}
  = (Return tt, {| cm_ca := ca; cm_ok := ok; cm_items := l1 ++ rest ++ l2 |}).
Proof.
  induction l2 as [|[k x] r IH]; intros l1 rest ok Hnd.
  - cbn. now rewrite app_nil_r.
  - assert (Hk : k ∉ map fst l1).
    { rewrite map_app in Hnd. apply NoDup_app in Hnd as (_ & Hdisj & _).
      intros Hin. apply (Hdisj _ Hin). left. }
    cbn [map fst for_each]. unfold bind, move_to_end at 1. cbn [cm_ca cm_ok cm_items].
    rewrite <- app_comm_cons, (assoc_get_middle _ _ _ _ Hk), (assoc_del_middle _ _ _ _ Hk).
    rewrite <- !app_assoc. rewrite (IH l1 (rest ++ [(k, x)]) ok).
    + rewrite <- app_assoc. reflexivity.
    + rewrite map_app in *. cbn in Hnd.
      apply NoDup_app in Hnd as (H1 & Hdisj & H2).
      apply NoDup_cons in H2 as [_ H2].
      apply NoDup_app. split; [assumption|]. split; [|assumption].
      intros y Hy Hy'. apply (Hdisj _ Hy). now right.
Qed.

End InsertFacts.

Section IndexFacts.

Context {A : Type}.

Lemma range_as_drop (l : list A) (pos : Z) :
  (0 <= pos <= Z.of_nat (length l))%Z ->
  map (list_index l) (range pos (Z.of_nat (length l))) = map Some (drop (Z.to_nat pos) l).
Proof.
  intros Hpos. apply list_eq. intros i. unfold range.
  change (@map) with (@fmap list _).
  rewrite !list_lookup_fmap, lookup_drop.
  destruct (decide (i < Z.to_nat (Z.of_nat (length l) - pos))) as [Hi|Hi].
  - rewrite lookup_seq_lt by exact Hi. cbn. unfold list_index.
    destruct (Z.ltb_spec (pos + Z.of_nat i) 0) as [?|_]; [lia|].
    replace (Z.to_nat (pos + Z.of_nat i)) with (Z.to_nat pos + i) by lia.
    destruct (lookup_lt_is_Some_2 l (Z.to_nat pos + i) ltac:(lia)) as [x ->].
    reflexivity.
  - rewrite lookup_seq_ge by lia. cbn.
    rewrite lookup_ge_None_2 by lia. reflexivity.
Qed.

Lemma for_each_map {S B} (f : A -> B) (h : B -> M S unit) (l : list A) :
  for_each (map f l) h = for_each l (fun x => h (f x)).
Proof. induction l as [|x r IH]; cbn; [reflexivity | now rewrite IH]. Qed.

Lemma filter_all (P : A -> Prop) `{!forall x, Decision (P x)} (l : list A) :
  Forall P l -> filter P l = l.
Proof.
  induction 1 as [|x r Hx _ IH]; [reflexivity|].
  rewrite filter_cons_True by exact Hx. now rewrite IH.
Qed.

End IndexFacts.

Section InsertCases.

Implicit Types (m data : CommentedMap) (key field_name : string) (v : pyval).

Lemma bind_Return {S A B} (c : M S A) (k : A -> M S B) (s s' : S) (a : A) :
  c s = (Return a, s') -> bind c k s = k a s'.
Proof. unfold bind. now intros ->. Qed.

Lemma bind_Raise {S A B} (c : M S A) (k : A -> M S B) (s s' : S) (e : exn) :
  c s = (Raise e, s') -> bind c k s = (Raise e, s').
Proof. unfold bind. now intros ->. Qed.

Lemma bind_get_state {S B} (k : S -> M S B) (s : S) : bind get_state k s = k s s.
Proof. reflexivity. Qed.

Lemma own_keys_elem m key : own_keys m -> key ∈ cm_ok m <-> key ∈ keys m.
Proof. intros [_ ->]. apply elem_of_list_to_set. Qed.

(** On a well-formed map [keys] is the list of all keys and [len(_ok)]
    their number. *)
Lemma own_keys_filter (ok : gset string) (items : list (string * pyval)) :
  ok = list_to_set (map fst items) ->
  filter (fun k => k ∈ ok) (map fst items) = map fst items.
Proof.
  intros ->. apply filter_all, Forall_forall. intros x Hx.
  now apply elem_of_list_to_set.
Qed.

Lemma own_keys_size (ok : gset string) (items : list (string * pyval)) :
  NoDup (map fst items) -> ok = list_to_set (map fst items) ->
  size ok = length items.
Proof. intros Hnd ->. rewrite size_list_to_set by exact Hnd. apply length_map. Qed.

(** The loop of [insert] over positions inside the key list moves the
    keys from [pos] on. *)
Lemma insert_loop (keys : list string) (pos : Z) :
  (0 <= pos <= Z.of_nat (length keys))%Z ->
  for_each (range pos (Z.of_nat (length keys)))
    (fun idx => match list_index keys idx with
                | Some k => move_to_end k
                | None => raise IndexError_of_list
                end)
  = for_each (drop (Z.to_nat pos) keys) move_to_end.
Proof.
  intros Hpos.
  rewrite <- (for_each_map (list_index keys)
                (fun o => match o with
                          | Some k => move_to_end k
                          | None => raise IndexError_of_list
                          end)).
  rewrite (range_as_drop keys pos Hpos). now rewrite for_each_map.
Qed.

(** A key the map does not have, inserted at a position inside the map:
    it lands at that position and the rest keeps its order. *)
Lemma insert_fresh m (pos : Z) key v :
  own_keys m -> key ∉ keys m -> (0 <= pos < len m)%Z ->
  insert pos key v m
  = (Return tt,
     {| cm_ca := cm_ca m; cm_ok := cm_ok m ∪ {[ key ]};
        cm_items := take (Z.to_nat pos) (cm_items m)
                    ++ (key, v) :: drop (Z.to_nat pos) (cm_items m) |}).
Proof.
  intros Hown Hkey Hpos. pose proof (own_keys_elem m key Hown) as Hok.
  destruct Hown as [Hnd Hoks]. destruct m as [ca ok items].
  unfold keys, len in *. cbn [cm_ca cm_ok cm_items] in *.
  unfold insert.
  rewrite bind_get_state. cbv beta. cbn [cm_ok].
  rewrite bool_decide_eq_false_2 by (rewrite Hok; exact Hkey).
  rewrite (bind_Return (ret tt) _ _ _ _ eq_refl).
  rewrite bind_get_state. cbv beta zeta. cbn [cm_ok cm_items].
  rewrite (own_keys_filter ok items Hoks), (own_keys_size ok items Hnd Hoks).
  rewrite (bind_Return _ _ _ _ _ (setitem_fresh ca items ok key v Hkey)).
  rewrite <- (length_map fst items).
  rewrite insert_loop by (rewrite length_map; lia).
  rewrite skipn_map.
  assert (Hmove : for_each (map fst (drop (Z.to_nat pos) items)) move_to_end
            {| cm_ca := ca; cm_ok := ok ∪ {[ key ]}; cm_items := items ++ [(key, v)] |}
          = (Return tt,
             {| cm_ca := ca; cm_ok := ok ∪ {[ key ]};
                cm_items := take (Z.to_nat pos) items
                            ++ [(key, v)] ++ drop (Z.to_nat pos) items |})).
  { rewrite <- (take_drop (Z.to_nat pos) items) at 2. rewrite <- app_assoc.
    apply move_block. now rewrite take_drop. }
  rewrite (bind_Return _ _ _ _ _ Hmove).
  unfold modify. cbn. do 2 f_equal. set_solver.
Qed.

(** A key the map already owns, inserted at [len - 1]: the old entry is
    deleted first, which leaves no key at that position or after it, so
    the key stays where [self[key] = value] put it, at the end. *)
Lemma insert_owned_at_last m key v v0 :
  own_keys m -> assoc_get key (cm_items m) = Some v0 ->
  insert (len m - 1) key v m
  = (Return tt,
     {| cm_ca := cm_ca m; cm_ok := cm_ok m;
        cm_items := assoc_del key (cm_items m) ++ [(key, v)] |}).
Proof.
  intros Hown Hget. pose proof (own_keys_elem m key Hown) as Hok.
  destruct Hown as [Hnd Hoks]. destruct m as [ca ok items].
  unfold keys, len in *. cbn [cm_ca cm_ok cm_items] in *.
  assert (Hin : key ∈ ok) by (apply Hok; eapply assoc_get_Some_elem; eassumption).
  pose proof (assoc_del_length _ _ _ Hget) as Hlen.
  destruct (assoc_del_keys items key Hnd) as [Hfresh Hnd'].
  unfold insert.
  rewrite bind_get_state. cbv beta. cbn [cm_ok].
  rewrite bool_decide_eq_true_2 by exact Hin.
  assert (Hdel : delitem key {| cm_ca := ca; cm_ok := ok; cm_items := items |}
                 = (Return tt, {| cm_ca := ca; cm_ok := ok ∖ {[ key ]};
                                  cm_items := assoc_del key items |})).
  { unfold delitem. cbn [cm_ca cm_ok cm_items]. now rewrite Hget. }
  rewrite (bind_Return _ _ _ _ _ Hdel).
  rewrite bind_get_state. cbv beta zeta. cbn [cm_ok cm_items].
  assert (Hsize : size (ok ∖ {[ key ]}) = length items - 1).
  { rewrite size_difference by set_solver.
    rewrite size_singleton, (own_keys_size ok items Hnd Hoks). reflexivity. }
  rewrite Hsize.
  replace (range (Z.of_nat (length items) - 1) (Z.of_nat (length items - 1)))
    with (@nil Z) by (unfold range; now replace (Z.to_nat _) with 0 by lia).
  rewrite (bind_Return _ _ _ _ _ (setitem_fresh ca _ _ key v Hfresh)).
  cbn [for_each]. rewrite (bind_Return (ret tt) _ _ _ _ eq_refl).
  unfold modify. cbn. do 2 f_equal.
  apply set_eq. intros x. rewrite !elem_of_union, elem_of_difference, elem_of_singleton.
  destruct (decide (x = key)) as [->|]; tauto.
Qed.

(** On a map without entries the position is [-1]: the key is stored,
    and then [keys[-1]] on the empty list of the old keys raises
    [IndexError]. *)
Lemma insert_into_empty m key v :
  own_keys m -> cm_items m = [] ->
  insert (len m - 1) key v m
  = (Raise IndexError_of_list,
     {| cm_ca := cm_ca m; cm_ok := cm_ok m ∪ {[ key ]}; cm_items := [(key, v)] |}).
Proof.
  intros [_ Hoks]. destruct m as [ca ok items].
  unfold keys, len in *. cbn [cm_ca cm_ok cm_items] in *. intros ->. cbn in Hoks. subst ok.
  unfold insert. rewrite bind_get_state. cbv beta. cbn [cm_ok].
  rewrite bool_decide_eq_false_2 by set_solver.
  rewrite (bind_Return (ret tt) _ _ _ _ eq_refl).
  rewrite bind_get_state. cbv beta zeta. cbn [cm_ok cm_items].
  rewrite size_empty.
  rewrite (bind_Return _ _ _ _ _ (setitem_fresh ca [] _ key v ltac:(apply not_elem_of_nil))).
  reflexivity.
Qed.

(** A field with a value other than [None] makes the call a no-op. *)
Lemma populate_present data field_name default_value v :
  assoc_get field_name (cm_items data) = Some v -> is_None v = false ->
  populate_if_dict_field_not_exist field_name default_value data = (Return v, data).
Proof.
  intros Hget Hv. unfold populate_if_dict_field_not_exist, get, try_except, getitem, bind.
  rewrite Hget, Hv. unfold ret. now rewrite Hget.
Qed.

(** Otherwise the insert branch is taken. *)
Lemma populate_inserts data field_name default_value :
  assoc_get field_name (cm_items data) = None \/
  assoc_get field_name (cm_items data) = Some PyNone ->
  populate_if_dict_field_not_exist field_name default_value data
  = (let* _ := insert (len data - 1) field_name default_value in getitem field_name) data.
Proof.
  intros H. unfold populate_if_dict_field_not_exist, get, try_except.
  unfold bind at 1 2, getitem at 1.
  destruct H as [-> | ->]; reflexivity.
Qed.

End InsertCases.

(** C3, as the code has it.  On a document with at least one entry the
    call returns the value the field has afterwards.  A field that is
    absent is inserted with the default at index [len(data) - 1], just
    before the entry that was last; a field with a value other than [None]
    leaves the document as it is.  Whenever the returned value is not
    [None] (so whenever the default is not), a second call with the same
    arguments returns the same value and leaves the document identical. *)
Theorem populate_if_dict_field_not_exist_spec
    (data : CommentedMap) (field_name : string) (default_value : pyval) :
  own_keys data -> cm_items data <> [] ->
  exists v data',
    populate_if_dict_field_not_exist field_name default_value data = (Return v, data') /\
    assoc_get field_name (cm_items data') = Some v /\
    (field_name ∉ keys data ->
       v = default_value /\
       cm_items data'
       = take (length (cm_items data) - 1) (cm_items data)
         ++ (field_name, default_value) :: drop (length (cm_items data) - 1) (cm_items data)) /\
    (forall v0, assoc_get field_name (cm_items data) = Some v0 -> is_None v0 = false ->
       v = v0 /\ data' = data) /\
    (is_None default_value = false -> is_None v = false) /\
    (is_None v = false ->
       populate_if_dict_field_not_exist field_name default_value data' = (Return v, data')).
Proof.
  intros Hown Hne.
  assert (Hlen : (0 <= len data - 1 < len data)%Z).
  { unfold len. destruct (cm_items data); [contradiction | cbn; lia]. }
  assert (Hnat : Z.to_nat (len data - 1) = length (cm_items data) - 1)
    by (unfold len; lia).
  destruct (assoc_get field_name (cm_items data)) as [v0|] eqn:Hget.
  - destruct (is_None v0) eqn:Hv0.
    + (* present, bound to None: deleted and appended *)
      destruct v0; try discriminate.
      exists default_value. eexists.
      assert (Hfresh : field_name ∉ map fst (assoc_del field_name (cm_items data)))
        by (apply assoc_del_keys, Hown).
      assert (Hafter : assoc_get field_name
                (assoc_del field_name (cm_items data) ++ [(field_name, default_value)])
              = Some default_value) by (now apply assoc_get_middle).
      split.
      { rewrite populate_inserts by (now right).
        rewrite (bind_Return _ _ _ _ _ (insert_owned_at_last _ _ _ _ Hown Hget)).
        unfold getitem. cbn [cm_items]. now rewrite Hafter. }
      cbn [cm_items]. split; [exact Hafter|]. split.
      { intros Habs. apply assoc_get_None in Habs. unfold keys in Habs. congruence. }
      split; [intros v1 [= <-]; discriminate|].
      split; [auto|].
      intros Hdv. now apply populate_present.
    + (* present with a value: no-op *)
      exists v0, data. rewrite (populate_present _ _ _ _ Hget Hv0).
      split; [reflexivity|]. split; [exact Hget|]. split.
      { intros Habs. apply assoc_get_None in Habs. congruence. }
      split; [intros v1 [= <-] _; now split|].
      split; [auto|]. intros _. reflexivity.
  - (* absent: inserted before the last entry *)
    assert (Habs : field_name ∉ keys data) by (now apply assoc_get_None).
    exists default_value.
    exists {| cm_ca := cm_ca data; cm_ok := cm_ok data ∪ {[ field_name ]};
              cm_items := take (length (cm_items data) - 1) (cm_items data)
                          ++ (field_name, default_value)
                             :: drop (length (cm_items data) - 1) (cm_items data) |}.
    assert (Hafter : assoc_get field_name
              (take (length (cm_items data) - 1) (cm_items data)
               ++ (field_name, default_value)
                  :: drop (length (cm_items data) - 1) (cm_items data))
            = Some default_value).
    { apply assoc_get_middle. intros Hin. apply Habs. unfold keys.
      rewrite <- (take_drop (length (cm_items data) - 1) (cm_items data)), map_app.
      apply elem_of_app. now left. }
    split.
    { rewrite populate_inserts by (now left).
      rewrite (bind_Return _ _ _ _ _ (insert_fresh _ _ _ _ Hown Habs Hlen)).
      rewrite Hnat. unfold getitem. cbn [cm_items]. now rewrite Hafter. }
    cbn [cm_items].
    split; [exact Hafter|]. split; [now split|].
    split; [intros v1 [=]|]. split; [auto|].
    intros Hdv. now apply populate_present.
Qed.

Lemma populate_if_dict_field_not_exist_spec_witness :
  populate_if_dict_field_not_exist "b" (PyInt 5)
    (example_map no_comment [("a", PyInt 1); ("c", PyInt 2)])
  = (Return (PyInt 5),
     example_map no_comment [("a", PyInt 1); ("b", PyInt 5); ("c", PyInt 2)]) /\
  populate_if_dict_field_not_exist "b" (PyInt 5)
    (example_map no_comment [("a", PyInt 1); ("b", PyInt 5); ("c", PyInt 2)])
  = (Return (PyInt 5),
     example_map no_comment [("a", PyInt 1); ("b", PyInt 5); ("c", PyInt 2)]).
Proof.
  assert (Hown : own_keys (example_map no_comment [("a", PyInt 1); ("c", PyInt 2)])).
  { split; [|reflexivity]. cbn. repeat constructor; set_solver. }
  assert (Hne : cm_items (example_map no_comment [("a", PyInt 1); ("c", PyInt 2)]) <> [])
    by discriminate.
  destruct (populate_if_dict_field_not_exist_spec _ "b" (PyInt 5) Hown Hne)
    as (v & data' & Hrun & _ & Habsent & _ & Hv & Hagain).
  assert (Hfirst : populate_if_dict_field_not_exist "b" (PyInt 5)
            (example_map no_comment [("a", PyInt 1); ("c", PyInt 2)])
          = (Return (PyInt 5),
             example_map no_comment [("a", PyInt 1); ("b", PyInt 5); ("c", PyInt 2)]))
    by (vm_compute; reflexivity).
  split; [exact Hfirst|].
  rewrite Hfirst in Hrun. injection Hrun as <- <-.
  apply Hagain. reflexivity.
Defined.

(** C3, as stated, fails in two ways.  On a document without entries the
    position is [-1]: [insert] stores the field and then raises
    [IndexError] at [keys[-1]], the list of the old keys being empty, so
    the call raises instead of returning the value.  And with [None] as
    the default a second call is not a no-op: the first puts the field
    before the last entry, the second moves it to the end. *)
Lemma populate_if_dict_field_not_exist_not_always :
  fst (populate_if_dict_field_not_exist "f" (PyInt 1) (example_map no_comment []))
  = Raise (Exn IndexError "list index out of range" None) /\
  cm_items (snd (populate_if_dict_field_not_exist "f" (PyInt 1) (example_map no_comment [])))
  = [("f", PyInt 1)] /\
  cm_items (snd (populate_if_dict_field_not_exist "b" PyNone
                   (example_map no_comment [("a", PyInt 1)])))
  = [("b", PyNone); ("a", PyInt 1)] /\
  cm_items (snd (populate_if_dict_field_not_exist "b" PyNone
                   (snd (populate_if_dict_field_not_exist "b" PyNone
                           (example_map no_comment [("a", PyInt 1)])))))
  = [("a", PyInt 1); ("b", PyNone)].
Proof. repeat apply conj; vm_compute; reflexivity. Qed.

(** C10.  A field that is present but bound to [None] is handled by the
    same branch as an absent one, the insert at [len(data) - 1] followed
    by the lookup; on a well-formed document the field then holds the
    default value (as the last entry) and that value is returned. *)
Theorem populate_treats_None_as_absent
    (data : CommentedMap) (field_name : string) (default_value : pyval) :
  assoc_get field_name (cm_items data) = Some PyNone ->
  populate_if_dict_field_not_exist field_name default_value data
  = (let* _ := insert (len data - 1) field_name default_value in getitem field_name) data /\
  (forall absent : CommentedMap,
     assoc_get field_name (cm_items absent) = None ->
     populate_if_dict_field_not_exist field_name default_value absent
     = (let* _ := insert (len absent - 1) field_name default_value in getitem field_name)
         absent) /\
  (own_keys data ->
     populate_if_dict_field_not_exist field_name default_value data
     = (Return default_value,
        {| cm_ca := cm_ca data; cm_ok := cm_ok data;
           cm_items := assoc_del field_name (cm_items data)
                       ++ [(field_name, default_value)] |})).
Proof.
  intros Hget. split; [apply populate_inserts; now right|].
  split; [intros absent Habs; apply populate_inserts; now left|].
  intros Hown. rewrite populate_inserts by (now right).
  rewrite (bind_Return _ _ _ _ _ (insert_owned_at_last _ _ _ _ Hown Hget)).
  unfold getitem. cbn [cm_items].
  rewrite assoc_get_middle; [reflexivity|]. apply assoc_del_keys, Hown.
Qed.

Lemma populate_treats_None_as_absent_witness :
  populate_if_dict_field_not_exist "a" (PyInt 7)
    (example_map no_comment [("a", PyNone); ("c", PyInt 2)])
  = (Return (PyInt 7), example_map no_comment [("c", PyInt 2); ("a", PyInt 7)]).
Proof.
  assert (Hown : own_keys (example_map no_comment [("a", PyNone); ("c", PyInt 2)])).
  { split; [|reflexivity]. cbn. repeat constructor; set_solver. }
  rewrite (proj2 (proj2 (populate_treats_None_as_absent
             (example_map no_comment [("a", PyNone); ("c", PyInt 2)]) "a" (PyInt 7)
             eq_refl)) Hown).
  vm_compute. reflexivity.
Defined.

(* ===================================================================== *)
(** * More on [comma_sep_to_list] *)
(* ===================================================================== *)

(** Number of occurrences of a character, to count separators with. *)
Fixpoint count_char (c : ascii) (s : string) : nat :=
  match s with
  | EmptyString => 0
  | String d r => (if Ascii.eqb d c then 1 else 0) + count_char c r
  end.

(** [sep.join(l)] *)
Fixpoint join (sep : string) (l : list string) : string :=
  match l with
  | [] => ""
  | [x] => x
  | x :: r => x +:+ sep +:+ join sep r
  end.

Lemma append_nil_l (s : string) : "" +:+ s = s.
Proof. reflexivity. Qed.

Lemma append_cons (c : ascii) (s t : string) : String c s +:+ t = String c (s +:+ t).
Proof. reflexivity. Qed.

Section SplitFacts.

Variable sep : ascii.
Hypothesis sep_not_space : isspace sep = false.

Lemma split_nonempty (s : string) : split sep s <> [].
Proof.
  destruct s as [|c r]; cbn; [discriminate|].
  destruct (Ascii.eqb c sep); [discriminate|]. now destruct (split sep r).
Qed.

Lemma split_length (s : string) : length (split sep s) = S (count_char sep s).
Proof.
  induction s as [|c r IH]; cbn; [reflexivity|].
  destruct (Ascii.eqb c sep); cbn; [now rewrite IH|].
  pose proof (split_nonempty r). destruct (split sep r); [contradiction | exact IH].
Qed.

Lemma split_pieces_no_sep (s : string) :
  Forall (fun x => count_char sep x = 0) (split sep s).
Proof.
  induction s as [|c r IH]; cbn; [now repeat constructor|].
  destruct (Ascii.eqb c sep) eqn:Hc; [now constructor|].
  destruct (split sep r) as [|h t]; [repeat constructor; cbn; now rewrite Hc|].
  apply Forall_cons in IH as [Hh Ht]. constructor; [|assumption].
  cbn. now rewrite Hc.
Qed.

Lemma split_no_sep (s : string) : count_char sep s = 0 -> split sep s = [s].
Proof.
  induction s as [|c r IH]; cbn; [reflexivity|].
  destruct (Ascii.eqb c sep); [discriminate|]. intros H. now rewrite IH.
Qed.

Lemma split_app_sep (x r : string) :
  count_char sep x = 0 -> split sep (x +:+ String sep r) = x :: split sep r.
Proof.
  induction x as [|c x' IH]; rewrite ?append_nil_l, ?append_cons; cbn [split count_char].
  - intros _. now rewrite Ascii.eqb_refl.
  - destruct (Ascii.eqb c sep); [discriminate|]. intros H. now rewrite IH.
Qed.

Lemma space_not_sep (c : ascii) : isspace c = true -> Ascii.eqb c sep = false.
Proof.
  intros Hc. destruct (Ascii.eqb_spec c sep) as [->|]; [congruence | reflexivity].
Qed.

Lemma count_char_lstrip (s : string) : count_char sep (lstrip s) = count_char sep s.
Proof.
  induction s as [|c r IH]; cbn; [reflexivity|].
  destruct (isspace c) eqn:Hc; [|reflexivity].
  now rewrite IH, (space_not_sep c Hc).
Qed.

Lemma count_char_rstrip (s : string) : count_char sep (rstrip s) = count_char sep s.
Proof.
  induction s as [|c r IH]; cbn; [reflexivity|].
  destruct (rstrip r) as [|d t] eqn:Hr.
  - cbn in IH. rewrite <- IH.
    destruct (isspace c) eqn:Hc; cbn; [now rewrite (space_not_sep c Hc) | lia].
  - cbn in IH |- *. now rewrite IH.
Qed.

Lemma count_char_strip (s : string) : count_char sep (strip s) = count_char sep s.
Proof. unfold strip. now rewrite count_char_rstrip, count_char_lstrip. Qed.

End SplitFacts.

Lemma comma_not_space : isspace "," = false.
Proof. reflexivity. Qed.

Lemma comma_sep_to_list_blank (s : string) :
  all_space s = true -> comma_sep_to_list (Some s) = [].
Proof.
  intros H. unfold comma_sep_to_list.
  destruct s as [|c r]; [reflexivity|].
  apply strip_empty_iff in H.
  change (truthy_str (Some (String c r))) with true.
  change (default "" (Some (String c r))) with (String c r).
  cbv beta iota zeta. now rewrite H.
Qed.

Lemma comma_sep_to_list_nonblank (s : string) :
  all_space s = false ->
  comma_sep_to_list (Some s) = map strip (split "," (strip s)).
Proof.
  intros H. unfold comma_sep_to_list.
  destruct s as [|c r]; [discriminate|].
  change (truthy_str (Some (String c r))) with true.
  change (default "" (Some (String c r))) with (String c r).
  cbv beta iota zeta.
  destruct (strip (String c r)) as [|d t] eqn:E; [|reflexivity].
  apply strip_empty_iff in E. congruence.
Qed.

(** X1.  A non-blank input gives one element more than it has commas, so
    never the empty list; empty pieces between, before or after commas
    are kept as empty strings. *)
Theorem comma_sep_to_list_length (s : string) :
  all_space s = false ->
  length (comma_sep_to_list (Some s)) = S (count_char "," s).
Proof.
  intros H. rewrite (comma_sep_to_list_nonblank s H), length_map, split_length.
  now rewrite (count_char_strip "," comma_not_space).
Qed.

Lemma comma_sep_to_list_length_witness :
  length (comma_sep_to_list (Some "a,,b,")) = 4.
Proof. apply (comma_sep_to_list_length "a,,b,"). reflexivity. Defined.

(** X2.  No element of the result contains a comma. *)
Theorem comma_sep_to_list_no_comma (s : option string) :
  Forall (fun x => count_char "," x = 0) (comma_sep_to_list s).
Proof.
  destruct s as [s|]; [|constructor].
  destruct (all_space s) eqn:H.
  - rewrite (comma_sep_to_list_blank s H). constructor.
  - rewrite (comma_sep_to_list_nonblank s H). apply Forall_map.
    eapply Forall_impl; [apply split_pieces_no_sep|].
    intros x Hx. cbn. now rewrite (count_char_strip "," comma_not_space).
Qed.

(** X3.  An input without a comma that is not blank is one pattern: the
    input stripped. *)
Theorem comma_sep_to_list_single (s : string) :
  all_space s = false -> count_char "," s = 0 ->
  comma_sep_to_list (Some s) = [strip s].
Proof.
  intros H Hc. rewrite (comma_sep_to_list_nonblank s H).
  rewrite split_no_sep by (now rewrite (count_char_strip "," comma_not_space)).
  cbn. f_equal. unfold strip at 1.
  destruct (strip_fixpoint s) as [-> ->]. reflexivity.
Qed.

Lemma comma_sep_to_list_single_witness :
  comma_sep_to_list (Some " *.md ") = ["*.md"].
Proof.
  rewrite (comma_sep_to_list_single " *.md " eq_refl eq_refl). reflexivity.
Defined.

Section JoinFacts.

(** A string with no whitespace at either end. *)
Definition stripped (x : string) : Prop := lstrip x = x /\ rstrip x = x.

Lemma stripped_strip (x : string) : stripped x -> strip x = x.
Proof. intros [Hl Hr]. unfold strip. now rewrite Hl. Qed.

Lemma lstrip_fixed_head (x : string) :
  lstrip x = x -> x = "" \/ exists c r, x = String c r /\ isspace c = false.
Proof.
  intros H. destruct (lstrip_head x) as [E | (c & r & E & Hc)]; rewrite H in E.
  - now left.
  - right. eauto.
Qed.

Lemma lstrip_app (x y : string) :
  lstrip x = x -> x <> "" -> lstrip (x +:+ y) = x +:+ y.
Proof.
  intros H Hne. destruct (lstrip_fixed_head x H) as [->|(c & r & -> & Hc)]; [contradiction|].
  rewrite append_cons. cbn [lstrip]. now rewrite Hc.
Qed.

Lemma rstrip_app (x y : string) :
  rstrip y = y -> y <> "" -> rstrip (x +:+ y) = x +:+ y.
Proof.
  intros H Hne. induction x as [|c x' IH]; [now rewrite append_nil_l|].
  rewrite append_cons. cbn [rstrip]. rewrite IH.
  destruct (x' +:+ y) as [|d t] eqn:E; [|reflexivity].
  destruct x'; [rewrite append_nil_l in E; contradiction | discriminate].
Qed.

Lemma join_cons2 (x y : string) (r : list string) :
  join "," (x :: y :: r) = x +:+ String "," (join "," (y :: r)).
Proof. reflexivity. Qed.

Lemma rstrip_join (l : list string) :
  Forall stripped l -> rstrip (join "," l) = join "," l.
Proof.
  induction l as [|x [|y r] IH]; intros Hl.
  - reflexivity.
  - apply Forall_cons in Hl as [[_ Hx] _]. exact Hx.
  - apply Forall_cons in Hl as [_ Hr]. rewrite join_cons2.
    apply rstrip_app; [|discriminate].
    rewrite (rstrip_cons_nonspace _ _ comma_not_space). now rewrite (IH Hr).
Qed.

Lemma lstrip_join (l : list string) :
  Forall stripped l -> lstrip (join "," l) = join "," l.
Proof.
  destruct l as [|x [|y r]]; intros Hl.
  - reflexivity.
  - apply Forall_cons in Hl as [[Hx _] _]. exact Hx.
  - apply Forall_cons in Hl as [[Hx _] _]. rewrite join_cons2.
    destruct x as [|c x']; [reflexivity|]. now apply lstrip_app.
Qed.

Lemma split_join (l : list string) :
  l <> [] -> Forall (fun x => count_char "," x = 0) l ->
  split "," (join "," l) = l.
Proof.
  induction l as [|x [|y r] IH]; intros Hne Hl; [contradiction| |].
  - apply Forall_cons in Hl as [Hx _]. now apply split_no_sep.
  - apply Forall_cons in Hl as [Hx Hr]. rewrite join_cons2.
    rewrite (split_app_sep "," x _ Hx). now rewrite IH.
Qed.

Lemma join_not_empty (l : list string) :
  l <> [] -> l <> [""] -> join "," l <> "".
Proof.
  destruct l as [|x [|y r]]; intros H1 H2; [contradiction| |].
  - cbn. intros ->. contradiction.
  - rewrite join_cons2. destruct x; discriminate.
Qed.

End JoinFacts.

(** X4.  Round trip with [",".join]: a list of patterns that are free of
    commas and of surrounding whitespace, joined by commas, is parsed back
    to the same list.  The two exceptions are the lists that join to the
    empty string: the empty list and the list holding one empty string. *)
Theorem comma_sep_to_list_join (l : list string) :
  l <> [] -> l <> [""] ->
  Forall (fun x => count_char "," x = 0) l ->
  Forall stripped l ->
  comma_sep_to_list (Some (join "," l)) = l.
Proof.
  intros Hne Hne' Hcomma Hclean.
  assert (Hstrip : strip (join "," l) = join "," l).
  { unfold strip. now rewrite lstrip_join, rstrip_join. }
  assert (Hblank : all_space (join "," l) = false).
  { destruct (all_space (join "," l)) eqn:E; [|reflexivity].
    apply strip_empty_iff in E. rewrite Hstrip in E.
    now apply join_not_empty in E. }
  rewrite (comma_sep_to_list_nonblank _ Hblank), Hstrip, (split_join l Hne Hcomma).
  clear -Hclean. induction Hclean as [|x r Hx _ IH]; [reflexivity|].
  cbn. now rewrite (stripped_strip x Hx), IH.
Qed.

Lemma comma_sep_to_list_join_witness :
  comma_sep_to_list (Some (join "," ["*.md"; ""; "catalogs/x y"]))
  = ["*.md"; ""; "catalogs/x y"].
Proof.
  apply (comma_sep_to_list_join ["*.md"; ""; "catalogs/x y"]).
  - discriminate.
  - discriminate.
  - repeat constructor.
  - repeat constructor.
Defined.

(** X5.  Whitespace around the input or around a piece does not matter:
    the result for the stripped input is the result for the input. *)
Theorem comma_sep_to_list_strip (s : string) :
  comma_sep_to_list (Some (strip s)) = comma_sep_to_list (Some s).
Proof.
  destruct (all_space s) eqn:H.
  - rewrite (comma_sep_to_list_blank s H).
    apply strip_empty_iff in H. now rewrite H.
  - assert (H' : all_space (strip s) = false).
    { destruct (all_space (strip s)) eqn:E; [|reflexivity].
      apply strip_empty_iff in E. unfold strip at 1 in E.
      destruct (strip_fixpoint s) as [Hl Hr]. rewrite Hl, Hr in E.
      apply strip_empty_iff in E. congruence. }
    rewrite (comma_sep_to_list_nonblank _ H'), (comma_sep_to_list_nonblank _ H).
    unfold strip at 2. destruct (strip_fixpoint s) as [-> ->]. reflexivity.
Qed.

(* ===================================================================== *)
(** * More on the entrypoint *)
(* ===================================================================== *)

Section EntrypointMore.

Variables GitProvider TaskBase TrestleBot BotResults : Type.
Variable provider_factory : string -> outcome GitProvider.
Variable is_github_actions : gmap string string -> bool.
Variable is_gitlab_ci : gmap string string -> bool.
Variable TrestleBot_new : TrestleBotArgs -> outcome TrestleBot.
Variable bot_run : TrestleBot -> RunArgs GitProvider TaskBase -> outcome BotResults.
Variable report_results : Reporter -> BotResults -> outcome unit.

(** X6.  On success the provider is built from the whole content of the
    token stream with the whitespace around it removed (a trailing newline
    included); the stream is left at end of file. *)
Theorem set_git_provider_success
    (args : Namespace) (w : world) (f : io_handle) (p : GitProvider) :
  truthy_str (target_branch args) = true ->
  with_token args = Some f ->
  closed (token_stream w) = false ->
  provider_factory (strip (buffer (token_stream w))) = Return p ->
  set_git_provider GitProvider provider_factory args w
  = (Return (Some p),
     {| token_stream := {| buffer := ""; closed := false |};
        environ := environ w;
        trace := trace w ++ [EvTokenRead;
                             EvProviderFactory (strip (buffer (token_stream w)))] |}) /\
  stripped (strip (buffer (token_stream w))).
Proof.
  intros Ht Hw Hc Hp. split; [|apply strip_fixpoint].
  unfold set_git_provider. rewrite Ht, Hw. run_monad. rewrite Hc. cbn.
  rewrite Hp. now rewrite <- app_assoc.
Qed.

(** X7.  Reading happens outside the [try]: the [ValueError] of a closed
    stream is not turned into an invalid-argument error, and the provider
    factory is not called. *)
Theorem set_git_provider_closed_stream
    (args : Namespace) (w : world) (f : io_handle) :
  truthy_str (target_branch args) = true ->
  with_token args = Some f ->
  closed (token_stream w) = true ->
  set_git_provider GitProvider provider_factory args w
  = (Raise (Exn ValueError "I/O operation on closed file." None),
     {| token_stream := token_stream w; environ := environ w;
        trace := trace w ++ [EvTokenRead] |}).
Proof.
  intros Ht Hw Hc. unfold set_git_provider. rewrite Ht, Hw. run_monad.
  now rewrite Hc.
Qed.

(** X8.  Without a usable token nothing of the run happens: with
    [target_branch] set and [with_token] being [None], [run_base] raises
    the invalid-argument error at once; no platform is detected, no bot is
    built or run, nothing is reported, and [handle_exception] maps the
    error to [const.INVALID_ARGS_EXIT_CODE]. *)
Theorem run_base_missing_token
    (const : Const) (args : Namespace) (pre_tasks : list TaskBase) (w : world) (msg : string) :
  truthy_str (target_branch args) = true ->
  with_token args = None ->
  exists e,
    run_base GitProvider TaskBase TrestleBot BotResults provider_factory
      is_github_actions is_gitlab_ci TrestleBot_new bot_run report_results
      args pre_tasks w = (Raise e, w) /\
    fst (handle_exception const e msg w) = Return (INVALID_ARGS_EXIT_CODE const).
Proof.
  intros Ht Hw. eexists. split.
  - unfold run_base, bind at 1, set_git_provider.
    now rewrite Ht, Hw.
  - reflexivity.
Qed.

(** The calls a run makes when nothing fails, in order. *)
Definition full_trace (args : Namespace) (w : world) : list event :=
  (if reads_token args
   then [EvTokenRead; EvProviderFactory (strip (buffer (token_stream w)))]
   else [])
  ++ [EvIsGithubActions]
  ++ (if is_github_actions (environ w) then [] else [EvIsGitlabCI])
  ++ [EvTrestleBot; EvBotRun (comma_sep_to_list (Some (file_patterns args)));
      EvReportResults].

(** X9.  The calls of a run always come in the same order, and a failure
    stops the run where it happens: whatever the collaborators do, what
    [run_base] adds to the trace is a prefix of the full sequence, and the
    whole of it when the run returns.  So the bot never runs before the
    provider is resolved, and results are never reported for a bot run
    that raised. *)
Theorem run_base_trace_prefix (args : Namespace) (pre_tasks : list TaskBase) (w : world) :
  exists t,
    trace (snd (run_base GitProvider TaskBase TrestleBot BotResults provider_factory
                  is_github_actions is_gitlab_ci TrestleBot_new bot_run report_results
                  args pre_tasks w)) = trace w ++ t /\
    t `prefix_of` full_trace args w /\
    (forall r, fst (run_base GitProvider TaskBase TrestleBot BotResults provider_factory
                      is_github_actions is_gitlab_ci TrestleBot_new bot_run report_results
                      args pre_tasks w) = Return r ->
               t = full_trace args w).
Proof.
  unfold run_base, set_git_provider, set_reporter, full_trace, reads_token.
  destruct (truthy_str (target_branch args)); cbn [andb];
    [destruct (with_token args) as [f|]; cbn [bool_decide decide_rel]|].
  - rewrite bool_decide_eq_true_2 by discriminate.
    run_monad. destruct (closed (token_stream w)); cbn.
    { eexists. split; [reflexivity|]. split; [|discriminate].
      eexists. cbn. reflexivity. }
    destruct (provider_factory _) as [p|e]; cbn.
    + destruct (is_github_actions (environ w)); cbn;
        [|destruct (is_gitlab_ci (environ w)); cbn];
        (destruct (TrestleBot_new _) as [bot|e1]; cbn;
         [destruct (bot_run _ _) as [res|e2]; cbn;
          [destruct (report_results _ _) as [[]|e3]; cbn|]|]);
        rewrite <- ?app_assoc; cbn;
        (eexists; split; [reflexivity|]; split;
         [eexists; cbn; reflexivity | try discriminate; intros; reflexivity]).
    + destruct (isinstance e ValueError); [|destruct (isinstance e RuntimeError)]; cbn;
        rewrite <- ?app_assoc; cbn;
        (eexists; split; [reflexivity|]; split;
         [eexists; cbn; reflexivity | discriminate]).
  - rewrite bool_decide_eq_false_2 by (intros H; now apply H).
    run_monad. exists []. rewrite app_nil_r. split; [reflexivity|].
    split; [apply prefix_nil | discriminate].
  - run_monad.
    destruct (is_github_actions (environ w)); cbn;
      [|destruct (is_gitlab_ci (environ w)); cbn];
      (destruct (TrestleBot_new _) as [bot|e1]; cbn;
       [destruct (bot_run _ _) as [res|e2]; cbn;
        [destruct (report_results _ _) as [[]|e3]; cbn|]|]);
      rewrite <- ?app_assoc; cbn;
      (eexists; split; [reflexivity|]; split;
       [eexists; cbn; reflexivity | try discriminate; intros; reflexivity]).
Qed.

End EntrypointMore.

Lemma set_git_provider_success_witness :
  set_git_provider string (fun tok => Return tok)
    (example_args (Some "main") (Some TokenStream)) (example_world " ghp_abc " ∅)
  = (Return (Some "ghp_abc"),
     {| token_stream := {| buffer := ""; closed := false |};
        environ := ∅;
        trace := [EvTokenRead; EvProviderFactory "ghp_abc"] |}).
Proof.
  apply (set_git_provider_success string (fun tok => Return tok)
           (example_args (Some "main") (Some TokenStream)) (example_world " ghp_abc " ∅)
           TokenStream "ghp_abc"); reflexivity.
Defined.

Lemma set_git_provider_closed_stream_witness :
  fst (set_git_provider string (fun tok => Return tok)
         (example_args (Some "main") (Some TokenStream))
         {| token_stream := {| buffer := "tok"; closed := true |};
            environ := ∅; trace := [] |})
  = Raise (Exn ValueError "I/O operation on closed file." None).
Proof.
  rewrite (set_git_provider_closed_stream string (fun tok => Return tok)
             (example_args (Some "main") (Some TokenStream))
             {| token_stream := {| buffer := "tok"; closed := true |};
                environ := ∅; trace := [] |} TokenStream eq_refl eq_refl eq_refl).
  reflexivity.
Defined.

Lemma run_base_missing_token_witness :
  exists e,
    example_run (fun tok => Return tok) (Return tt)
      (example_args (Some "main") None) [] (example_world "" ∅)
    = (Raise e, example_world "" ∅) /\
    fst (handle_exception example_const e "failed" (example_world "" ∅)) = Return 2%Z.
Proof.
  apply (run_base_missing_token string unit unit unit (fun tok => Return tok)
           (example_detect "GITHUB_ACTIONS") (example_detect "GITLAB_CI")
           (fun _ => Return tt) (fun _ _ => Return tt) (fun _ _ => Return tt)
           example_const (example_args (Some "main") None) [] (example_world "" ∅)
           "failed"); reflexivity.
Defined.

Lemma run_base_trace_prefix_witness :
  trace (snd (example_run (fun tok => Return tok) (Return tt)
                (example_args None (Some TokenStream)) [] (example_world "tok" ∅)))
  = [EvIsGithubActions; EvIsGitlabCI; EvTrestleBot; EvBotRun ["."]; EvReportResults].
Proof.
  destruct (run_base_trace_prefix string unit unit unit (fun tok => Return tok)
              (example_detect "GITHUB_ACTIONS") (example_detect "GITLAB_CI")
              (fun _ => Return tt) (fun _ _ => Return tt) (fun _ _ => Return tt)
              (example_args None (Some TokenStream)) [] (example_world "tok" ∅))
    as (t & Ht & _ & Hfull).
  unfold example_run. rewrite Ht. rewrite (Hfull tt eq_refl). reflexivity.
Defined.

(* ===================================================================== *)
(** * More on [populate_if_dict_field_not_exist] *)
(* ===================================================================== *)

Section AssocMore.

Context {V : Type}.
Implicit Types (l : list (string * V)) (k key : string) (v : V).

Lemma assoc_get_middle_ne l1 l2 k key v :
  k <> key -> assoc_get k (l1 ++ (key, v) :: l2) = assoc_get k (l1 ++ l2).
Proof.
  intros Hne. induction l1 as [|[k' v'] r IH]; cbn.
  - destruct (String.eqb_spec k key); [contradiction | reflexivity].
  - now rewrite IH.
Qed.

Lemma assoc_get_del_ne l k key : k <> key -> assoc_get k (assoc_del key l) = assoc_get k l.
Proof.
  intros Hne. induction l as [|[k' v'] r IH]; cbn; [reflexivity|].
  destruct (String.eqb_spec key k') as [<-|Hk'].
  - destruct (String.eqb_spec k key); [contradiction | reflexivity].
  - cbn. now rewrite IH.
Qed.

Lemma assoc_del_elem l k x :
  NoDup (map fst l) ->
  x ∈ map fst (assoc_del k l) <-> x ∈ map fst l /\ x <> k.
Proof.
  induction l as [|[k' v'] r IH]; cbn.
  - intros _. rewrite elem_of_nil. tauto.
  - intros Hnd. apply NoDup_cons in Hnd as [Hk' Hr].
    destruct (String.eqb_spec k k') as [->|Hne].
    + rewrite elem_of_cons. split.
      * intros Hx. split; [now right|]. intros ->. contradiction.
      * intros [[->|Hx] Hxk]; [contradiction | assumption].
    + cbn. rewrite !elem_of_cons, (IH Hr). split.
      * intros [->|[Hx Hxk]]; [split; [now left | congruence] | split; [now right | assumption]].
      * intros [[->|Hx] Hxk]; [now left | right; now split].
Qed.

End AssocMore.

Section PopulateMore.

Implicit Types (data : CommentedMap) (field_name k : string) (default_value : pyval).

Lemma snd_getitem k data : snd (getitem k data) = data.
Proof. unfold getitem. now destruct (assoc_get k (cm_items data)). Qed.

Lemma to_nat_last data : Z.to_nat (len data - 1) = length (cm_items data) - 1.
Proof. unfold len. lia. Qed.

(** What the call leaves behind, case by case. *)
Lemma populate_result data field_name default_value :
  own_keys data ->
  snd (populate_if_dict_field_not_exist field_name default_value data)
  = match assoc_get field_name (cm_items data) with
    | Some v0 =>
        if is_None v0
        then {| cm_ca := cm_ca data; cm_ok := cm_ok data;
                cm_items := assoc_del field_name (cm_items data)
                            ++ [(field_name, default_value)] |}
        else data
    | None =>
        match cm_items data with
        | [] => {| cm_ca := cm_ca data; cm_ok := cm_ok data ∪ {[ field_name ]};
                   cm_items := [(field_name, default_value)] |}
        | _ => {| cm_ca := cm_ca data; cm_ok := cm_ok data ∪ {[ field_name ]};
                  cm_items := take (length (cm_items data) - 1) (cm_items data)
                              ++ (field_name, default_value)
                                 :: drop (length (cm_items data) - 1) (cm_items data) |}
        end
    end.
Proof.
  intros Hown.
  destruct (assoc_get field_name (cm_items data)) as [v0|] eqn:Hget.
  - destruct (is_None v0) eqn:Hv0.
    + destruct v0; try discriminate.
      rewrite populate_inserts by (now right).
      rewrite (bind_Return _ _ _ _ _ (insert_owned_at_last _ _ _ _ Hown Hget)).
      apply snd_getitem.
    + now rewrite (populate_present _ _ _ _ Hget Hv0).
  - rewrite populate_inserts by (now left).
    assert (Hnotin : field_name ∉ keys data) by (now apply assoc_get_None).
    destruct (cm_items data) as [|e r] eqn:Hitems.
    + now rewrite (bind_Raise _ _ _ _ _ (insert_into_empty data field_name default_value
                                            Hown Hitems)).
    + assert (Hlen : (0 <= len data - 1 < len data)%Z)
        by (unfold len; rewrite Hitems; cbn [length]; lia).
      rewrite (bind_Return _ _ _ _ _ (insert_fresh _ _ _ _ Hown Hnotin Hlen)).
      rewrite snd_getitem, to_nat_last, Hitems. reflexivity.
Qed.

(** X10.  The call touches no other field: every other key is bound
    afterwards to what it was bound before, on every well-formed
    document, also on the empty one, where the call raises. *)
Theorem populate_keeps_other_fields data field_name default_value k :
  own_keys data -> k <> field_name ->
  assoc_get k (cm_items (snd (populate_if_dict_field_not_exist field_name default_value data)))
  = assoc_get k (cm_items data).
Proof.
  intros Hown Hne. rewrite (populate_result _ _ _ Hown).
  destruct (assoc_get field_name (cm_items data)) as [v0|] eqn:Hget.
  - destruct (is_None v0); [|reflexivity]. cbn [cm_items].
    rewrite (assoc_get_middle_ne _ [] _ _ _ Hne), app_nil_r.
    now apply assoc_get_del_ne.
  - destruct (cm_items data) as [|e r] eqn:Hitems; cbn [cm_items].
    + apply (assoc_get_middle_ne [] [] _ _ _ Hne).
    + rewrite (assoc_get_middle_ne _ _ _ _ _ Hne). now rewrite take_drop.
Qed.

Lemma populate_own_keys data field_name default_value :
  own_keys data -> cm_items data <> [] ->
  own_keys (snd (populate_if_dict_field_not_exist field_name default_value data)).
Proof.
  intros Hown Hne. rewrite (populate_result _ _ _ Hown).
  pose proof Hown as [Hnd Hok].
  destruct (assoc_get field_name (cm_items data)) as [v0|] eqn:Hget.
  - destruct (is_None v0); [|assumption].
    destruct (assoc_del_keys (cm_items data) field_name Hnd) as [Hfresh Hnd'].
    unfold own_keys, keys in *. cbn [cm_items cm_ok].
    rewrite map_app. cbn. split.
    + apply NoDup_app. split; [assumption|]. split; [|apply NoDup_singleton].
      intros x Hx Hx'. apply list_elem_of_singleton in Hx'. subst x. contradiction.
    + rewrite Hok. apply set_eq. intros x.
      rewrite list_to_set_app_L, elem_of_union, !elem_of_list_to_set.
      rewrite (assoc_del_elem _ _ _ Hnd), list_elem_of_singleton.
      pose proof (assoc_get_Some_elem _ _ _ Hget).
      destruct (decide (x = field_name)) as [->|]; tauto.
  - destruct (cm_items data) as [|e r] eqn:Hitems; [contradiction|].
    rewrite <- Hitems in *. clear Hitems e r.
    apply assoc_get_None in Hget.
    unfold own_keys, keys in *. cbn [cm_items cm_ok].
    set (n := length (cm_items data) - 1).
    assert (Hsplit : map fst (cm_items data)
                     = map fst (take n (cm_items data)) ++ map fst (drop n (cm_items data)))
      by (now rewrite <- map_app, take_drop).
    rewrite map_app. cbn. split.
    + rewrite Hsplit in Hnd, Hget.
      apply NoDup_app in Hnd as (H1 & Hdisj & H2).
      apply NoDup_app. split; [assumption|]. split.
      * intros x Hx Hx'. apply elem_of_cons in Hx' as [->|Hx'].
        -- apply Hget, elem_of_app. now left.
        -- exact (Hdisj x Hx Hx').
      * apply NoDup_cons. split; [|assumption].
        intros Hin. apply Hget, elem_of_app. now right.
    + rewrite Hok, Hsplit. apply set_eq. intros x.
      rewrite elem_of_union, !elem_of_list_to_set, !elem_of_app, elem_of_cons,
        elem_of_singleton. tauto.
Qed.

(** X11.  A document with entries stays well formed and ends up holding
    the field: after the call every key still occurs once, [_ok] is still
    the set of the keys, and that set is the old one with the field
    added. *)
Theorem populate_keeps_own_keys data field_name default_value :
  own_keys data -> cm_items data <> [] ->
  let data' := snd (populate_if_dict_field_not_exist field_name default_value data) in
  own_keys data' /\
  field_name ∈ keys data' /\
  cm_ok data' = cm_ok data ∪ {[ field_name ]}.
Proof.
  intros Hown Hne data'.
  pose proof (populate_own_keys data field_name default_value Hown Hne) as Hown'.
  fold data' in Hown'.
  assert (Hok : cm_ok data' = cm_ok data ∪ {[ field_name ]}).
  { subst data'. rewrite (populate_result _ _ _ Hown).
    destruct (assoc_get field_name (cm_items data)) as [v0|] eqn:Hget.
    - apply assoc_get_Some_elem in Hget. apply (own_keys_elem _ _ Hown) in Hget.
      destruct (is_None v0); cbn [cm_ok]; set_solver.
    - now destruct (cm_items data). }
  split; [exact Hown'|]. split; [|exact Hok].
  apply (own_keys_elem _ _ Hown'). rewrite Hok. set_solver.
Qed.

(** X12.  The document never loses an entry: it grows by one when the
    field was absent and keeps its size when the field was present, bound
    to [None] or not. *)
Theorem populate_length data field_name default_value :
  own_keys data -> cm_items data <> [] ->
  length (cm_items (snd (populate_if_dict_field_not_exist field_name default_value data)))
  = if bool_decide (field_name ∈ keys data)
    then length (cm_items data)
    else S (length (cm_items data)).
Proof.
  intros Hown Hne. rewrite (populate_result _ _ _ Hown).
  destruct (assoc_get field_name (cm_items data)) as [v0|] eqn:Hget.
  - rewrite bool_decide_eq_true_2 by (eapply assoc_get_Some_elem; eassumption).
    destruct (is_None v0); [|reflexivity]. cbn [cm_items].
    rewrite length_app. cbn. rewrite <- (assoc_del_length _ _ _ Hget). lia.
  - rewrite bool_decide_eq_false_2 by (now apply assoc_get_None).
    destruct (cm_items data) as [|e r] eqn:Hitems; [contradiction|]. cbn [cm_items].
    rewrite length_app. cbn [length]. rewrite length_take, length_drop. cbn. lia.
Qed.

(** X13.  On a document without entries the first call fails and the
    second succeeds.  The position is [-1]: [insert] stores the field with
    the default value and then raises [IndexError] at [keys[-1]], the list
    of the old keys being empty.  The field is in the document all the
    same, so the same call made again returns the default value and
    leaves the document as the first call left it. *)
Theorem populate_empty_document data field_name default_value :
  own_keys data -> cm_items data = [] ->
  populate_if_dict_field_not_exist field_name default_value data
  = (Raise (Exn IndexError "list index out of range" None),
     {| cm_ca := cm_ca data; cm_ok := cm_ok data ∪ {[ field_name ]};
        cm_items := [(field_name, default_value)] |}) /\
  populate_if_dict_field_not_exist field_name default_value
    {| cm_ca := cm_ca data; cm_ok := cm_ok data ∪ {[ field_name ]};
       cm_items := [(field_name, default_value)] |}
  = (Return default_value,
     {| cm_ca := cm_ca data; cm_ok := cm_ok data ∪ {[ field_name ]};
        cm_items := [(field_name, default_value)] |}).
Proof.
  intros Hown Hitems. split.
  - rewrite populate_inserts by (left; now rewrite Hitems).
    now rewrite (bind_Raise _ _ _ _ _ (insert_into_empty data field_name default_value
                                         Hown Hitems)).
  - set (data' := {| cm_ca := cm_ca data; cm_ok := cm_ok data ∪ {[ field_name ]};
                     cm_items := [(field_name, default_value)] |}).
    assert (Hget : assoc_get field_name (cm_items data') = Some default_value)
      by (cbn; now rewrite String.eqb_refl).
    assert (Hown' : own_keys data').
    { destruct Hown as [_ Hok]. unfold keys in Hok. rewrite Hitems in Hok.
      split; cbn; [apply NoDup_singleton|]. rewrite Hok. set_solver. }
    destruct (is_None default_value) eqn:Hdv.
    + destruct default_value; try discriminate.
      rewrite populate_inserts by (now right).
      rewrite (bind_Return _ _ _ _ _ (insert_owned_at_last _ _ PyNone _ Hown' Hget)).
      unfold getitem. cbn. rewrite String.eqb_refl. cbn. now rewrite String.eqb_refl.
    + now apply populate_present.
Qed.

(** X14.  With [None] as the default the field does not stay where the
    first call put it: on a document with entries that lacks the field, a
    second call moves it from before the last entry to the very end. *)
Theorem populate_None_default_moves data field_name :
  own_keys data -> cm_items data <> [] -> field_name ∉ keys data ->
  cm_items (snd (populate_if_dict_field_not_exist field_name PyNone
                   (snd (populate_if_dict_field_not_exist field_name PyNone data))))
  = cm_items data ++ [(field_name, PyNone)].
Proof.
  intros Hown Hne Habs.
  pose proof (populate_own_keys data field_name PyNone Hown Hne) as Hown'.
  rewrite (populate_result _ _ _ Hown').
  rewrite (populate_result _ _ _ Hown) in *.
  apply assoc_get_None in Habs as Hget. rewrite Hget in *.
  destruct (cm_items data) as [|e r] eqn:Hitems; [contradiction|].
  rewrite <- Hitems in *. cbn [cm_items] in *.
  assert (Hfresh : field_name ∉ map fst (take (length (cm_items data) - 1) (cm_items data))).
  { intros Hin. apply Habs. unfold keys.
    rewrite <- (take_drop (length (cm_items data) - 1) (cm_items data)), map_app.
    apply elem_of_app. now left. }
  rewrite (assoc_get_middle _ _ _ _ Hfresh). cbn [is_None cm_items].
  now rewrite (assoc_del_middle _ _ _ _ Hfresh), take_drop.
Qed.

End PopulateMore.

Lemma populate_keeps_other_fields_witness :
  assoc_get "a" (cm_items (snd (populate_if_dict_field_not_exist "b" (PyInt 5)
                                  (example_map no_comment [("a", PyInt 1); ("c", PyInt 2)]))))
  = Some (PyInt 1).
Proof.
  assert (Hown : own_keys (example_map no_comment [("a", PyInt 1); ("c", PyInt 2)])).
  { split; [|reflexivity]. cbn. repeat constructor; set_solver. }
  rewrite (populate_keeps_other_fields _ "b" (PyInt 5) "a" Hown); [reflexivity|].
  discriminate.
Defined.

Lemma populate_keeps_own_keys_witness :
  own_keys (snd (populate_if_dict_field_not_exist "b" (PyInt 5)
                   (example_map no_comment [("a", PyInt 1); ("c", PyInt 2)]))).
Proof.
  assert (Hown : own_keys (example_map no_comment [("a", PyInt 1); ("c", PyInt 2)])).
  { split; [|reflexivity]. cbn. repeat constructor; set_solver. }
  assert (Hne : cm_items (example_map no_comment [("a", PyInt 1); ("c", PyInt 2)]) <> [])
    by discriminate.
  exact (proj1 (populate_keeps_own_keys _ "b" (PyInt 5) Hown Hne)).
Defined.

Lemma populate_length_witness :
  length (cm_items (snd (populate_if_dict_field_not_exist "b" (PyInt 5)
                           (example_map no_comment [("a", PyInt 1); ("c", PyInt 2)]))))
  = 3.
Proof.
  assert (Hown : own_keys (example_map no_comment [("a", PyInt 1); ("c", PyInt 2)])).
  { split; [|reflexivity]. cbn. repeat constructor; set_solver. }
  assert (Hne : cm_items (example_map no_comment [("a", PyInt 1); ("c", PyInt 2)]) <> [])
    by discriminate.
  rewrite (populate_length _ "b" (PyInt 5) Hown Hne).
  rewrite bool_decide_eq_false_2; [reflexivity|]. cbn. set_solver.
Defined.

Lemma populate_empty_document_witness :
  fst (populate_if_dict_field_not_exist "f" (PyInt 1) (example_map no_comment []))
  = Raise (Exn IndexError "list index out of range" None).
Proof.
  assert (Hown : own_keys (example_map no_comment [])).
  { split; [|reflexivity]. cbn. constructor. }
  rewrite (proj1 (populate_empty_document _ "f" (PyInt 1) Hown eq_refl)). reflexivity.
Defined.

Lemma populate_None_default_moves_witness :
  cm_items (snd (populate_if_dict_field_not_exist "b" PyNone
                   (snd (populate_if_dict_field_not_exist "b" PyNone
                           (example_map no_comment [("a", PyInt 1); ("c", PyInt 2)])))))
  = [("a", PyInt 1); ("c", PyInt 2); ("b", PyNone)].
Proof.
  assert (Hown : own_keys (example_map no_comment [("a", PyInt 1); ("c", PyInt 2)])).
  { split; [|reflexivity]. cbn. repeat constructor; set_solver. }
  assert (Hne : cm_items (example_map no_comment [("a", PyInt 1); ("c", PyInt 2)]) <> [])
    by discriminate.
  apply (populate_None_default_moves _ "b" Hown Hne). cbn. set_solver.
Defined.

(* ===================================================================== *)
(** * More on [get_comments_from_yaml_data] *)
(* ===================================================================== *)

Lemma get_comments_from_yaml_data_Return (yaml_data : pyval) (ca : Comment) :
  ca_of yaml_data = Some ca ->
  get_comments_from_yaml_data yaml_data = Return (map value (items_tokens ca)).
Proof.
  intros Hca. unfold get_comments_from_yaml_data, items_tokens. rewrite Hca.
  destruct (ca_items ca) as [|entry r] eqn:Hitems; [reflexivity|].
  now rewrite fold_entries_spec.
Qed.

(** X15.  The extraction follows the root's comment table piece by piece
    and looks at nothing else: where the table of one document is the
    table of a second followed by the table of a third, its comments are
    those of the second followed by those of the third, whatever the three
    documents hold as data, as keys of the tables, as comment on the root
    or as end comment. *)
Theorem get_comments_from_yaml_data_app (d d1 d2 : pyval) (ca ca1 ca2 : Comment) :
  ca_of d = Some ca -> ca_of d1 = Some ca1 -> ca_of d2 = Some ca2 ->
  map snd (ca_items ca) = map snd (ca_items ca1) ++ map snd (ca_items ca2) ->
  exists l1 l2,
    get_comments_from_yaml_data d1 = Return l1 /\
    get_comments_from_yaml_data d2 = Return l2 /\
    get_comments_from_yaml_data d = Return (l1 ++ l2).
Proof.
  intros H H1 H2 Hitems.
  rewrite (get_comments_from_yaml_data_Return _ _ H),
    (get_comments_from_yaml_data_Return _ _ H1),
    (get_comments_from_yaml_data_Return _ _ H2).
  do 2 eexists. split; [reflexivity|]. split; [reflexivity|].
  f_equal. rewrite <- map_app. f_equal. unfold items_tokens.
  assert (Hflat : forall items : list (ca_key * list comment_slot),
            flat_map (fun entry => flat_map slot_tokens (snd entry)) items
            = flat_map (flat_map slot_tokens) (map snd items)).
  { induction items as [|x r IH]; cbn; [reflexivity | now rewrite IH]. }
  rewrite !Hflat, Hitems. apply flat_map_app.
Qed.

Lemma get_comments_from_yaml_data_app_witness :
  get_comments_from_yaml_data example_commented_doc
  = Return (["# first"] ++ ["# tail"]).
Proof.
  destruct (get_comments_from_yaml_data_app
              example_commented_doc
              (PyCommentedSeq {| ca_comment := []; 
                                 ca_items := take 1 (ca_items example_comments);
                                 ca_end := [] |} [])
              (PyCommentedSeq {| ca_comment := [];
                                 ca_items := drop 1 (ca_items example_comments);
                                 ca_end := [] |} [PyInt 7])
              _ _ _ eq_refl eq_refl eq_refl eq_refl)
    as (l1 & l2 & H1 & H2 & H).
  vm_compute in H1, H2. injection H1 as <-. injection H2 as <-. exact H.
Defined.

(* ===================================================================== *)
(** * Failures of a run *)
(* ===================================================================== *)

Section RunFailures.

Variables GitProvider TaskBase TrestleBot BotResults : Type.
Variable provider_factory : string -> outcome GitProvider.
Variable is_github_actions : gmap string string -> bool.
Variable is_gitlab_ci : gmap string string -> bool.
Variable TrestleBot_new : TrestleBotArgs -> outcome TrestleBot.
Variable bot_run : TrestleBot -> RunArgs GitProvider TaskBase -> outcome BotResults.
Variable report_results : Reporter -> BotResults -> outcome unit.

(** X16.  A failure of the provider factory ends the run before anything
    else is done, and the class of the factory's error decides the exit
    code [handle_exception] gives for what [run_base] raised: the
    invalid-argument code for a [ValueError] or a [RuntimeError] (both are
    wrapped) and for an [EntrypointInvalidArgException] (which passes
    through), the generic code for everything else. *)
Theorem run_base_provider_error
    (const : Const) (args : Namespace) (pre_tasks : list TaskBase) (w : world)
    (f : io_handle) (e : exn) (msg : string) :
  truthy_str (target_branch args) = true ->
  with_token args = Some f ->
  closed (token_stream w) = false ->
  provider_factory (strip (buffer (token_stream w))) = Raise e ->
  exists raised w',
    run_base GitProvider TaskBase TrestleBot BotResults provider_factory
      is_github_actions is_gitlab_ci TrestleBot_new bot_run report_results
      args pre_tasks w = (Raise raised, w') /\
    trace w' = trace w ++ [EvTokenRead;
                           EvProviderFactory (strip (buffer (token_stream w)))] /\
    fst (handle_exception const raised msg w')
    = Return (if isinstance e ValueError || isinstance e RuntimeError
                 || isinstance e EntrypointInvalidArgException
              then INVALID_ARGS_EXIT_CODE const
              else ERROR_EXIT_CODE const).
Proof.
  intros Ht Hw Hc Hf.
  unfold run_base, bind at 1, set_git_provider. rewrite Ht, Hw.
  run_monad. rewrite Hc. cbn. rewrite Hf.
  destruct (isinstance e ValueError) eqn:Hv; cbn [orb].
  - do 2 eexists. split; [reflexivity|]. cbn. rewrite <- app_assoc.
    split; reflexivity.
  - destruct (isinstance e RuntimeError) eqn:Hr; cbn [orb].
    + do 2 eexists. split; [reflexivity|]. cbn. rewrite <- app_assoc.
      split; reflexivity.
    + do 2 eexists. split; [reflexivity|]. cbn. rewrite <- app_assoc.
      split; [reflexivity|]. unfold handle_exception. run_monad.
      now destruct (isinstance e EntrypointInvalidArgException).
Qed.

(** X17.  An error of [bot.run] comes out of [run_base] as it is, not
    wrapped; by then the reporter has been chosen and the bot built, the
    patterns passed to the bot are [comma_sep_to_list] of
    [--file-patterns], and nothing is reported. *)
Theorem run_base_bot_run_error
    (args : Namespace) (pre_tasks : list TaskBase) (w w1 : world)
    (git_provider : option GitProvider) (bot : TrestleBot) (e : exn) :
  set_git_provider GitProvider provider_factory args w = (Return git_provider, w1) ->
  TrestleBot_new {| bot_working_dir := working_dir args;
                    bot_branch := branch args;
                    bot_commit_name := committer_name args;
                    bot_commit_email := committer_email args;
                    bot_author_name := author_name args;
                    bot_author_email := author_email args;
                    bot_target_branch := target_branch args |} = Return bot ->
  bot_run bot {| run_commit_message := commit_message args;
                 run_pre_tasks := pre_tasks;
                 run_patterns := comma_sep_to_list (Some (file_patterns args));
                 run_git_provider := git_provider;
                 run_pull_request_title := pull_request_title args;
                 run_dry_run := dry_run args |} = Raise e ->
  exists w' t,
    run_base GitProvider TaskBase TrestleBot BotResults provider_factory
      is_github_actions is_gitlab_ci TrestleBot_new bot_run report_results
      args pre_tasks w = (Raise e, w') /\
    trace w' = trace w1 ++ t
               ++ [EvTrestleBot; EvBotRun (comma_sep_to_list (Some (file_patterns args)))] /\
    (t = [EvIsGithubActions] \/ t = [EvIsGithubActions; EvIsGitlabCI]) /\
    token_stream w' = token_stream w1.
Proof.
  intros Hgp Hnew Hrun.
  unfold run_base, bind at 1. rewrite Hgp.
  unfold set_reporter. run_monad.
  destruct (is_github_actions (environ w1)); cbn;
    [|destruct (is_gitlab_ci (environ w1)); cbn];
    rewrite Hnew; cbn; rewrite Hrun; cbn.
  - eexists. exists [EvIsGithubActions]. split; [reflexivity|]. cbn.
    split; [now rewrite <- !app_assoc | auto].
  - eexists. exists [EvIsGithubActions; EvIsGitlabCI]. split; [reflexivity|]. cbn.
    split; [now rewrite <- !app_assoc | auto].
  - eexists. exists [EvIsGithubActions; EvIsGitlabCI]. split; [reflexivity|]. cbn.
    split; [now rewrite <- !app_assoc | auto].
Qed.

End RunFailures.

Lemma run_base_provider_error_witness :
  exists raised w',
    example_run (fun _ => Raise (Exn KeyError "'host'" None)) (Return tt)
      (example_args (Some "main") (Some TokenStream)) [] (example_world "tok" ∅)
    = (Raise raised, w') /\
    fst (handle_exception example_const raised "failed" w') = Return 1%Z.
Proof.
  destruct (run_base_provider_error string unit unit unit
              (fun _ => Raise (Exn KeyError "'host'" None))
              (example_detect "GITHUB_ACTIONS") (example_detect "GITLAB_CI")
              (fun _ => Return tt) (fun _ _ => Return tt) (fun _ _ => Return tt)
              example_const (example_args (Some "main") (Some TokenStream)) []
              (example_world "tok" ∅) TokenStream (Exn KeyError "'host'" None) "failed"
              eq_refl eq_refl eq_refl eq_refl)
    as (raised & w' & Hrun & _ & Hcode).
  exists raised, w'. split; [exact Hrun | exact Hcode].
Defined.

Lemma run_base_bot_run_error_witness :
  fst (example_run (fun tok => Return tok) (Raise (Exn OSError "git push failed" None))
         (example_args None (Some TokenStream)) [] (example_world "tok" ∅))
  = Raise (Exn OSError "git push failed" None).
Proof.
  destruct (run_base_bot_run_error string unit unit unit (fun tok => Return tok)
              (example_detect "GITHUB_ACTIONS") (example_detect "GITLAB_CI")
              (fun _ => Return tt)
              (fun _ _ => Raise (Exn OSError "git push failed" None))
              (fun _ _ => Return tt)
              (example_args None (Some TokenStream)) [] (example_world "tok" ∅)
              (example_world "tok" ∅) None tt (Exn OSError "git push failed" None)
              eq_refl eq_refl eq_refl)
    as (w' & t & Hrun & _).
  unfold example_run. now rewrite Hrun.
Defined.
